(** * Adstock decay curves

    A shallow embedding of the three variable-transformation functions of
    [src/Adstock.py]: [geometric_adstock_decay], [delayed_geometric_decay]
    and [weibull_adstock_decay], together with the library routines they
    call (NumPy's [arange], [zeros], [quantile], [cumprod], [sum], SciPy's
    [weibull_min.cdf]/[weibull_min.pdf], scikit-learn's [MinMaxScaler]).

    Number model.  The code computes in binary64.  Two embeddings are kept
    side by side.

    - The main one idealises doubles as the real numbers [R].  It is used
      for the properties that rounding cannot change: lengths, order, exact
      zeros, which exception is raised, and equalities that repeat the
      code's own expression.  What decides control flow or the shape of a
      result is explicit in it: a Python exception is the outcome
      [Raise e]; a value outside the double range, a NumPy division by
      zero and a SciPy distribution evaluated outside its parameter domain
      put [inf]/[nan] into the array, the outcome [NonFinite].
    - Module [F64] embeds on Rocq's primitive binary64 floats the parts of
      the code that use only [+], [-], [*], [/], comparison, [floor] and
      [round].  It computes the very doubles the code computes and is used
      where rounding decides the result.

    Python integers are [Z]; strings are [string]. *)

From Stdlib Require Import Reals Lra Lia ZArith List String Ascii Bool.
From Stdlib Require Import Floats QArith Qround.
From Stdlib Require Uint63.
Import ListNotations.

#[local] Open Scope Z_scope.
#[local] Open Scope R_scope.

(** ** Outcomes of a call *)

Inductive exn : Type :=
| ValueError
| IndexError
| UnboundLocalError
| OverflowError.

Inductive result (A : Type) : Type :=
| Ok (a : A)
| Raise (e : exn)
| NonFinite.

Arguments Ok {A} a.
Arguments Raise {A} e.
Arguments NonFinite {A}.

Definition bind {A B : Type} (r : result A) (k : A -> result B) : result B :=
  match r with
  | Ok a => k a
  | Raise e => Raise e
  | NonFinite => NonFinite
  end.

Notation "x <- e ;; k" := (bind e (fun x => k))
  (at level 61, e at next level, right associativity).

(** A [for] loop over [xs] whose body may fail, threading the loop state. *)
Fixpoint for_each {A S : Type} (xs : list A) (body : S -> A -> result S)
  (s : S) : result S :=
  match xs with
  | [] => Ok s
  | x :: rest => s' <- body s x ;; for_each rest body s'
  end.

(** Element-wise application of a function that may fail. *)
Fixpoint map_result {A B : Type} (f : A -> result B) (l : list A)
  : result (list B) :=
  match l with
  | [] => Ok []
  | x :: rest => y <- f x ;; ys <- map_result f rest ;; Ok (y :: ys)
  end.

(** Decidable comparisons on [R], as booleans. *)
Definition Reqb (x y : R) : bool := if Req_dec_T x y then true else false.
Definition Rltb (x y : R) : bool := if Rlt_dec x y then true else false.
Definition Rleb (x y : R) : bool := if Rle_dec x y then true else false.

(** The double range: a real of magnitude [2^1024 - 2^970] or more is
    rounded to an infinity. *)
Definition float_overflow : R := 2 ^ 1024 - 2 ^ 970.

Definition overflows (x : R) : bool := Rleb float_overflow (Rabs x).

(** ** Python builtins *)

Module Py.

(** [range(a, b)]: empty when [b <= a]. *)
Definition range (a b : Z) : list Z :=
  map (fun i => (a + Z.of_nat i)%Z) (seq 0 (Z.to_nat (b - a))).

(** [abs] of an integer, as an exponent for [**]. *)
Definition abs (z : Z) : nat := Z.abs_nat z.

(** [x ** n] for a float [x] and an integer [n >= 0]: a result outside the
    double range raises [OverflowError]. *)
Definition float_pow (x : R) (n : nat) : result R :=
  if overflows (x ^ n) then Raise OverflowError else Ok (x ^ n).

(** [x * y] on floats: a product outside the double range is an infinity,
    without any exception. *)
Definition float_mul (x y : R) : result R :=
  if overflows (x * y) then NonFinite else Ok (x * y).

(** [round(x)] with one argument: the nearest integer, ties going to the
    even neighbour. *)
Definition round (x : R) : Z :=
  let f := Zfloor x in
  let d := x - IZR f in
  if Rltb d (1 / 2) then f
  else if Rltb (1 / 2) d then (f + 1)%Z
  else if Z.even f then f else (f + 1)%Z.

(** [str.lower] on ASCII text. *)
Definition lower_char (c : ascii) : ascii :=
  let n := nat_of_ascii c in
  if andb (Nat.leb 65 n) (Nat.leb n 90) then ascii_of_nat (n + 32) else c.

Fixpoint lower (s : string) : string :=
  match s with
  | EmptyString => EmptyString
  | String c rest => String (lower_char c) (lower rest)
  end.

(** Reading a local variable that may not have been assigned. *)
Definition read_local {A : Type} (v : option A) : result A :=
  match v with
  | Some a => Ok a
  | None => Raise UnboundLocalError
  end.

(** [a[i]] on a sequence: a negative index counts from the end. *)
Definition getitem (a : list R) (i : Z) : result R :=
  let n := Z.of_nat (List.length a) in
  let j := if (i <? 0)%Z then (n + i)%Z else i in
  if orb (j <? 0)%Z (n <=? j)%Z then Raise IndexError
  else Ok (nth (Z.to_nat j) a 0).

(** [a[i] = v] on an array. *)
Fixpoint update (a : list R) (k : nat) (v : R) : list R :=
  match a, k with
  | [], _ => []
  | _ :: rest, O => v :: rest
  | x :: rest, S k' => x :: update rest k' v
  end.

Definition setitem (a : list R) (i : Z) (v : R) : result (list R) :=
  let n := Z.of_nat (List.length a) in
  let j := if (i <? 0)%Z then (n + i)%Z else i in
  if orb (j <? 0)%Z (n <=? j)%Z then Raise IndexError
  else Ok (update a (Z.to_nat j) v).

End Py.

(** ** NumPy *)

Module Np.

(** [np.zeros(n)]: a negative dimension is a [ValueError]. *)
Definition zeros (n : Z) : result (list R) :=
  if (n <? 0)%Z then Raise ValueError else Ok (repeat 0 (Z.to_nat n)).

(** [np.arange(a, b)] on integers. *)
Definition arange (a b : Z) : list R := map IZR (Py.range a b).

Definition sum (a : list R) : R := fold_right Rplus 0 a.

(** [np.cumprod]: running product. *)
Fixpoint cumprod_from (acc : R) (a : list R) : list R :=
  match a with
  | [] => []
  | x :: rest => (acc * x) :: cumprod_from (acc * x) rest
  end.

Definition cumprod (a : list R) : list R := cumprod_from 1 a.

(** Floating-point division: a zero divisor yields [inf] or [nan]. *)
Definition divide (x y : R) : result R :=
  if Reqb y 0 then NonFinite else Ok (x / y).

(** [np.nanmin]/[np.nanmax] over a non-empty column. *)
Definition amin (a : list R) : result R :=
  match a with
  | [] => Raise ValueError
  | x :: rest => Ok (fold_left Rmin rest x)
  end.

Definition amax (a : list R) : result R :=
  match a with
  | [] => Raise ValueError
  | x :: rest => Ok (fold_left Rmax rest x)
  end.

(** Ascending sort, used by [quantile] to obtain the order statistics. *)
Fixpoint insert_sorted (x : R) (a : list R) : list R :=
  match a with
  | [] => [x]
  | y :: rest => if Rleb x y then x :: a else y :: insert_sorted x rest
  end.

Definition sort (a : list R) : list R := fold_right insert_sorted [] a.

(** [_lerp(a, b, t)]. *)
Definition lerp (a b t : R) : R :=
  let diff_b_a := b - a in
  if Rleb (1 / 2) t then b - diff_b_a * (1 - t) else a + diff_b_a * t.

(** [np.quantile(a, q)] with the default method, linear interpolation:
    the virtual index is [q * (n - 1)]; the two neighbouring order
    statistics are interpolated; an index at or above the last one is
    replaced by [-1] (the last element). *)
Definition quantile (a : list R) (q : R) : result R :=
  if orb (Rltb q 0) (Rltb 1 q) then Raise ValueError
  else
    let arr := sort a in
    let values_count := Z.of_nat (List.length a) in
    let virtual_index := q * (IZR values_count - 1) in
    let above_bounds := Rleb (IZR values_count - 1) virtual_index in
    let previous_index :=
      if above_bounds then (-1)%Z else Zfloor virtual_index in
    let next_index :=
      if above_bounds then (-1)%Z else (Zfloor virtual_index + 1)%Z in
    previous <- Py.getitem arr previous_index ;;
    next <- Py.getitem arr next_index ;;
    let gamma := virtual_index - IZR previous_index in
    Ok (lerp previous next gamma).

End Np.

(** ** SciPy: the Weibull minimum distribution

    [weibull_min.cdf(x, c, scale=s)] and [weibull_min.pdf(x, c, scale=s)]
    standardise [x] to [y = x / s]; outside the parameter domain [c > 0],
    [s > 0] they yield [nan].  The density is computed as
    [c * pow(y, c-1) * exp(-pow(y, c))]: when [pow(y, c-1)] leaves the
    double range it is an infinity, the exponential is zero and their
    product is [nan].  The distribution function, [-expm1(-pow(y, c))],
    stays finite. *)

Module Stats.

Definition argcheck (c s : R) : bool := andb (Rltb 0 c) (Rltb 0 s).

Definition weibull_min_cdf (x c s : R) : result R :=
  if argcheck c s then
    let y := x / s in
    if Rltb 0 y then Ok (1 - exp (- Rpower y c)) else Ok 0
  else NonFinite.

Definition weibull_min_pdf (x c s : R) : result R :=
  if argcheck c s then
    let y := x / s in
    if Rltb 0 y then
      if overflows (Rpower y (c - 1)) then NonFinite
      else Ok (c * Rpower y (c - 1) * exp (- Rpower y c) / s)
    else Ok 0
  else NonFinite.

End Stats.

(** ** scikit-learn: [MinMaxScaler().fit_transform] on one column *)

Module Sk.

(** [_handle_zeros_in_scale]: a zero range is replaced by one. *)
Definition handle_zeros_in_scale (scale : R) : R :=
  if Reqb scale 0 then 1 else scale.

Definition MinMaxScaler_fit_transform (X : list R) : result (list R) :=
  data_min <- Np.amin X ;;
  data_max <- Np.amax X ;;
  let data_range := data_max - data_min in
  scale_ <- Np.divide (1 - 0) (handle_zeros_in_scale data_range) ;;
  let min_ := 0 - data_min * scale_ in
  Ok (map (fun x => x * scale_ + min_) X).

End Sk.

(** ** The three transformations of [src/Adstock.py] *)

(** One turn of the loop of [geometric_adstock_decay]; the state is the
    pair of the local [impact] and the list [adstock_values]. *)
Definition geometric_body (decay_factor : R) (st : R * list R) (_ : Z)
  : R * list R :=
  let impact := fst st * decay_factor in
  (impact, snd st ++ [impact]).

Definition geometric_adstock_decay (impact decay_factor : R) (periods : Z)
  : list R :=
  let adstock_values := [impact] in
  snd (fold_left (geometric_body decay_factor) (Py.range 1 periods)
         (impact, adstock_values)).

Definition delayed_geometric_body (impact decay_factor : R) (theta : Z)
  (adstock_values : list R) (lag : Z) : result (list R) :=
  if (lag <? theta)%Z then
    p <- Py.float_pow decay_factor (Py.abs (lag - theta)) ;;
    v <- Py.float_mul impact p ;;
    Py.setitem adstock_values lag v
  else
    p <- Py.float_pow decay_factor (Py.abs (lag - theta)) ;;
    v <- Py.float_mul impact p ;;
    Py.setitem adstock_values lag v.

Definition delayed_geometric_decay (impact decay_factor : R) (theta L : Z)
  : result (list R) :=
  adstock_values <- Np.zeros L ;;
  for_each (Py.range 0 L)
    (delayed_geometric_body impact decay_factor theta) adstock_values.

(** Lines 72-88 of [weibull_adstock_decay]: the local [theta_vec_cum], the
    weight vector before normalisation and scaling.  The local is assigned
    in three of the four arms only; [None] is the unassigned local. *)
Definition theta_vec_cum (shape scale : R) (periods : Z)
  (adstock_type : string) : result (option (list R)) :=
  let x_bin := Np.arange 1 (periods + 1) in
  q <- Np.quantile x_bin scale ;;
  let transformed_scale := Py.round q in
  if orb (Reqb shape 0) (Reqb scale 0) then
    z <- Np.zeros periods ;; Ok (Some z)
  else if String.eqb (Py.lower adstock_type) "cdf" then
    c <- map_result
           (fun x => Stats.weibull_min_cdf x shape (IZR transformed_scale))
           (removelast x_bin) ;;
    let theta_vec := 1 :: map (fun p => 1 - p) c in
    Ok (Some (Np.cumprod theta_vec))
  else if String.eqb (Py.lower adstock_type) "pdf" then
    p <- map_result
           (fun x => Stats.weibull_min_pdf x shape (IZR transformed_scale))
           x_bin ;;
    d <- map_result (fun v => Np.divide v (Np.sum p)) p ;;
    Ok (Some d)
  else Ok None.

(** The whole function: lines 72-88 above, then lines 90-98. *)
Definition weibull_adstock_decay (impact shape scale : R) (periods : Z)
  (adstock_type : string) (normalised : bool) : result (list R) :=
  v <- theta_vec_cum shape scale periods adstock_type ;;
  if normalised then
    w <- Py.read_local v ;;
    norm_theta_vec_cum <- Sk.MinMaxScaler_fit_transform w ;;
    Ok (map (fun t => t * impact) norm_theta_vec_cum)
  else
    w <- Py.read_local v ;;
    Ok (map (fun t => t * impact) w).

(** ** The binary64 embedding

    The same code on doubles, for the parts that need no transcendental
    function: the loop of [geometric_adstock_decay] (lines 21-27), the
    scale transform of [weibull_adstock_decay] (lines 72-75) and its
    normalisation (lines 93-95).  Every operation is the IEEE operation the
    code performs, in the code's order. *)

Module F64.

#[local] Open Scope float_scope.

(** A Python integer as a double (exact below [2^53]). *)
Definition of_Z (z : Z) : float :=
  if (z <? 0)%Z then - PrimFloat.of_uint63 (Uint63.of_Z (- z))
  else PrimFloat.of_uint63 (Uint63.of_Z z).

(** The exact rational value of a finite double. *)
Definition to_Q (x : float) : option Q :=
  match Prim2SF x with
  | S754_zero _ => Some 0%Q
  | S754_finite s m e =>
      let v := (inject_Z (Zpos m) * Qpower 2 e)%Q in
      Some (if s then Qopp v else v)
  | _ => None
  end.

(** [np.floor] followed by the conversion to an index. *)
Definition floor (x : float) : option Z := option_map Qfloor (to_Q x).

(** [round(x)] on a double: the nearest integer, ties to even, computed
    exactly; [nan] and the infinities raise. *)
Definition round (x : float) : option Z :=
  match to_Q x with
  | None => None
  | Some q =>
      let f := Qfloor q in
      let d := (q - inject_Z f)%Q in
      Some (match Qcompare d (1 # 2) with
            | Lt => f
            | Gt => (f + 1)%Z
            | Eq => if Z.even f then f else (f + 1)%Z
            end)
  end.

(** [a[i]] on the integer axis. *)
Definition getitem (a : list Z) (i : Z) : option Z :=
  let n := Z.of_nat (List.length a) in
  let j := if (i <? 0)%Z then (n + i)%Z else i in
  if orb (j <? 0)%Z (n <=? j)%Z then None else nth_error a (Z.to_nat j).

(** [_lerp(a, b, t)] on two integer order statistics. *)
Definition lerp (a b : Z) (t : float) : float :=
  let diff_b_a := of_Z (b - a) in
  if PrimFloat.leb 0.5 t then of_Z b - diff_b_a * (1 - t)
  else of_Z a + diff_b_a * t.

(** [np.quantile(a, q)], linear method, on an ascending integer axis: the
    virtual index is the rounded product [(n - 1) * q]. *)
Definition quantile (a : list Z) (q : float) : option float :=
  if orb (PrimFloat.ltb q 0) (PrimFloat.ltb 1 q) then None
  else
    let values_count := Z.of_nat (List.length a) in
    let virtual_index := of_Z (values_count - 1) * q in
    let above_bounds :=
      PrimFloat.leb (of_Z (values_count - 1)) virtual_index in
    match floor virtual_index with
    | None => None
    | Some fl =>
        let previous_index := if above_bounds then (-1)%Z else fl in
        let next_index := if above_bounds then (-1)%Z else (fl + 1)%Z in
        match getitem a previous_index, getitem a next_index with
        | Some previous, Some next =>
            let gamma := virtual_index - of_Z previous_index in
            Some (lerp previous next gamma)
        | _, _ => None
        end
    end.

(** Lines 72-75: [round(np.quantile(np.arange(1, periods + 1), scale))]. *)
Definition transformed_scale (periods : Z) (scale : float) : option Z :=
  match quantile (Py.range 1 (periods + 1)) scale with
  | Some q => round q
  | None => None
  end.

(** Lines 21-27. *)
Definition geometric_body (decay_factor : float) (st : float * list float)
  (_ : Z) : float * list float :=
  let impact := fst st * decay_factor in
  (impact, snd st ++ [impact]).

Definition geometric_adstock_decay (impact decay_factor : float)
  (periods : Z) : list float :=
  let adstock_values := [impact] in
  snd (fold_left (geometric_body decay_factor) (Py.range 1 periods)
         (impact, adstock_values)).

(** [k] successive rounded products by [decay_factor]. *)
Definition repeated_product (decay_factor impact : float) (k : nat) : float :=
  Nat.iter k (fun v => v * decay_factor) impact.

Definition fmin (x y : float) : float := if PrimFloat.ltb y x then y else x.
Definition fmax (x y : float) : float := if PrimFloat.ltb x y then y else x.

(** [MinMaxScaler().fit_transform] on one non-empty column of doubles. *)
Definition MinMaxScaler_fit_transform (X : list float) : option (list float) :=
  match X with
  | [] => None
  | x :: rest =>
      let data_min := fold_left fmin rest x in
      let data_max := fold_left fmax rest x in
      let data_range := data_max - data_min in
      let scale_ :=
        (1 - 0) / (if PrimFloat.eqb data_range 0 then 1 else data_range) in
      let min_ := 0 - data_min * scale_ in
      Some (map (fun v => v * scale_ + min_) X)
  end.

(** Lines 93-95 on a weight vector of doubles. *)
Definition normalised_output (impact : float) (w : list float)
  : option (list float) :=
  option_map (map (fun v => v * impact)) (MinMaxScaler_fit_transform w).

End F64.

(** ** Vocabulary of the properties *)

(** A series that never goes up from one period to the next. *)
Definition nonincreasing (l : list R) : Prop :=
  forall i : nat, (S i < List.length l)%nat -> nth (S i) l 0 <= nth i l 0.

(** A vector all of whose entries are equal. *)
Definition constant (l : list R) : Prop :=
  forall x y : R, In x l -> In y l -> x = y.

(** [m] is the least entry of [l]; [M] is the greatest entry of [l]. *)
Definition is_min (m : R) (l : list R) : Prop :=
  In m l /\ forall x, In x l -> m <= x.

Definition is_max (M : R) (l : list R) : Prop :=
  In M l /\ forall x, In x l -> x <= M.


(** ** List and loop helpers *)

Lemma nth_map_in {A B : Type} (f : A -> B) (l : list A) (d : B) (d' : A)
  (i : nat) :
  (i < List.length l)%nat -> nth i (map f l) d = f (nth i l d').
Proof.
  revert i; induction l as [|x l IH]; intros [|i] Hi; simpl in *;
    try lia; auto. apply IH; lia.
Qed.

(** ** Geometric decay *)

Section Geometric.

Variables impact decay_factor : R.

Lemma range_length (a b : Z) :
  List.length (Py.range a b) = Z.to_nat (b - a).
Proof. unfold Py.range. now rewrite length_map, length_seq. Qed.

(** Loop invariant: after the loop has consumed [l], the local [impact]
    has been multiplied [length l] times and one value per turn has been
    appended. *)
Lemma geometric_loop (l : list Z) :
  forall (cur : R) (acc : list R),
    fold_left (geometric_body decay_factor) l (cur, acc) =
    (cur * decay_factor ^ List.length l,
     acc ++ map (fun k => cur * decay_factor ^ k)
              (seq 1 (List.length l))).
Proof.
  induction l as [|x l IH]; intros cur acc; simpl.
  - f_equal; [ring | now rewrite app_nil_r].
  - change (geometric_body decay_factor (cur, acc) x)
      with (cur * decay_factor, acc ++ [cur * decay_factor]).
    rewrite IH. f_equal; [ring|].
    rewrite <- app_assoc. simpl. f_equal. f_equal; [ring|].
    rewrite <- (seq_shift (List.length l) 1), map_map.
    apply map_ext. intros k. simpl. ring.
Qed.

Lemma geometric_unfold (periods : Z) :
  geometric_adstock_decay impact decay_factor periods =
  impact :: map (fun k => impact * decay_factor ^ k)
              (seq 1 (Z.to_nat (periods - 1))).
Proof.
  unfold geometric_adstock_decay.
  rewrite geometric_loop, range_length. reflexivity.
Qed.

Lemma geometric_length (periods : Z) :
  (1 <= periods)%Z ->
  List.length (geometric_adstock_decay impact decay_factor periods) =
  Z.to_nat periods.
Proof.
  intros Hp. rewrite geometric_unfold. simpl.
  rewrite length_map, length_seq. lia.
Qed.

Lemma geometric_nth (periods : Z) (i : nat) :
  (1 <= periods)%Z -> (i < Z.to_nat periods)%nat ->
  nth i (geometric_adstock_decay impact decay_factor periods) 0 =
  impact * decay_factor ^ i.
Proof.
  intros Hp Hi. rewrite geometric_unfold.
  destruct i as [|i]; simpl; [ring|].
  rewrite (nth_map_in _ _ _ O) by (rewrite length_seq; lia).
  rewrite seq_nth by lia. reflexivity.
Qed.

End Geometric.

(** ** Delayed geometric decay *)

Lemma update_length (a : list R) (k : nat) (v : R) :
  List.length (Py.update a k v) = List.length a.
Proof.
  revert k; induction a as [|x a IH]; intros [|k]; simpl; auto.
Qed.

Lemma update_nth_same (a : list R) (k : nat) (v d : R) :
  (k < List.length a)%nat -> nth k (Py.update a k v) d = v.
Proof.
  revert k; induction a as [|x a IH]; intros [|k] Hk; simpl in *;
    try lia; auto. apply IH; lia.
Qed.

Lemma update_nth_other (a : list R) (k i : nat) (v d : R) :
  i <> k -> nth i (Py.update a k v) d = nth i a d.
Proof.
  revert k i; induction a as [|x a IH]; intros [|k] [|i] Hik; simpl;
    try congruence; auto.
Qed.

Lemma setitem_in_range (a : list R) (i : Z) (v : R) :
  (0 <= i < Z.of_nat (List.length a))%Z ->
  Py.setitem a i v = Ok (Py.update a (Z.to_nat i) v).
Proof.
  intros Hi. unfold Py.setitem.
  destruct (Z.ltb_spec i 0) as [?|_]; [lia|].
  destruct (Z.ltb_spec i 0) as [?|_]; [lia|].
  destruct (Z.leb_spec (Z.of_nat (List.length a)) i) as [?|_]; [lia|].
  reflexivity.
Qed.

Lemma range_In (a b x : Z) : In x (Py.range a b) <-> (a <= x < b)%Z.
Proof.
  unfold Py.range. rewrite in_map_iff. split.
  - intros [k [<- Hk]]. apply in_seq in Hk. lia.
  - intros Hx. exists (Z.to_nat (x - a)). split; [lia|].
    apply in_seq. lia.
Qed.


(** ** Boolean comparisons on reals *)

Lemma Reqb_true (x y : R) : x = y -> Reqb x y = true.
Proof. intros H. unfold Reqb. now destruct (Req_dec_T x y). Qed.

Lemma Reqb_false (x y : R) : x <> y -> Reqb x y = false.
Proof. intros H. unfold Reqb. now destruct (Req_dec_T x y). Qed.

Lemma Rltb_true (x y : R) : x < y -> Rltb x y = true.
Proof. intros H. unfold Rltb. now destruct (Rlt_dec x y). Qed.

Lemma Rltb_false (x y : R) : y <= x -> Rltb x y = false.
Proof. intros H. unfold Rltb. destruct (Rlt_dec x y); [lra | easy]. Qed.

Lemma Rleb_true (x y : R) : x <= y -> Rleb x y = true.
Proof. intros H. unfold Rleb. now destruct (Rle_dec x y). Qed.

Lemma Rleb_false (x y : R) : y < x -> Rleb x y = false.
Proof. intros H. unfold Rleb. destruct (Rle_dec x y); [lra | easy]. Qed.

(** ** The double range *)

Lemma overflows_false (x : R) : Rabs x < float_overflow -> overflows x = false.
Proof. intros H. unfold overflows. now apply Rleb_false. Qed.

Lemma overflows_true (x : R) : float_overflow <= Rabs x -> overflows x = true.
Proof. intros H. unfold overflows. now apply Rleb_true. Qed.

Lemma float_overflow_above : 2 ^ 1000 < float_overflow.
Proof.
  unfold float_overflow. rewrite !pow_IZR, <- minus_IZR.
  apply IZR_lt. vm_compute. reflexivity.
Qed.

Lemma pow_two_overflows (n : nat) :
  (1024 <= n)%nat -> float_overflow <= Rabs (2 ^ n).
Proof.
  intros Hn. rewrite Rabs_pos_eq by (apply pow_le; lra).
  apply Rle_trans with (2 ^ 1024).
  - unfold float_overflow. assert (0 < 2 ^ 970) by (apply pow_lt; lra). lra.
  - apply Rle_pow; [lra | exact Hn].
Qed.

Lemma pow_unit_interval (d : R) (n : nat) : 0 <= d <= 1 -> 0 <= d ^ n <= 1.
Proof.
  intros Hd. induction n as [|n IH]; simpl; [lra | nra].
Qed.

(** With a factor of magnitude at most one nothing leaves the range. *)
Lemma unit_decay_in_range (impact d : R) (n : nat) :
  Rabs d <= 1 -> Rabs impact <= 2 ^ 1000 ->
  Rabs (d ^ n) <= 2 ^ 1000 /\ Rabs (impact * d ^ n) <= 2 ^ 1000.
Proof.
  intros Hd Hi.
  assert (Hpow : 0 <= Rabs (d ^ n) <= 1).
  { rewrite <- RPow_abs. apply pow_unit_interval.
    split; [apply Rabs_pos | exact Hd]. }
  assert (Hone : 1 <= 2 ^ 1000) by (apply pow_R1_Rle; lra).
  split; [lra|]. rewrite Rabs_mult.
  pose proof (Rabs_pos impact). nra.
Qed.

(** ** Delayed geometric decay *)

Section DelayedGeometric.

Variables impact decay_factor : R.
Variable theta : Z.

(** The value the loop stores at index [lag]. *)
#[local] Abbreviation target lag :=
  (impact * decay_factor ^ Py.abs (lag - theta)).

(** Both arms of the conditional do the same: when nothing leaves the
    double range they store the target value. *)
Lemma delayed_body_setitem (arr : list R) (lag : Z) :
  Rabs (decay_factor ^ Py.abs (lag - theta)) < float_overflow ->
  Rabs (target lag) < float_overflow ->
  delayed_geometric_body impact decay_factor theta arr lag =
  Py.setitem arr lag (target lag).
Proof.
  intros Hp Hv. unfold delayed_geometric_body, Py.float_pow, Py.float_mul.
  rewrite (overflows_false _ Hp). cbn [bind].
  rewrite (overflows_false _ Hv). cbn [bind].
  now destruct (lag <? theta)%Z.
Qed.

(** When an arm returns at all, it has stored the target value. *)
Lemma delayed_body_inv (arr arr' : list R) (lag : Z) :
  delayed_geometric_body impact decay_factor theta arr lag = Ok arr' ->
  Py.setitem arr lag (target lag) = Ok arr'.
Proof.
  unfold delayed_geometric_body, Py.float_pow, Py.float_mul.
  destruct (overflows (decay_factor ^ Py.abs (lag - theta)));
    cbn [bind]; [destruct (lag <? theta)%Z; discriminate|].
  destruct (overflows (target lag));
    cbn [bind]; [destruct (lag <? theta)%Z; discriminate|].
  now destruct (lag <? theta)%Z.
Qed.

(** Loop invariant: the visited indices hold their target value, the
    others are untouched, and the array keeps its length. *)
Lemma delayed_loop_inv (lags : list Z) :
  forall arr out : list R,
    (forall x, In x lags -> (0 <= x < Z.of_nat (List.length arr))%Z) ->
    for_each lags (delayed_geometric_body impact decay_factor theta) arr
    = Ok out ->
    List.length out = List.length arr /\
    forall i : nat,
      (In (Z.of_nat i) lags -> nth i out 0 = target (Z.of_nat i)) /\
      (~ In (Z.of_nat i) lags -> nth i out 0 = nth i arr 0).
Proof.
  induction lags as [|lag lags IH]; intros arr out Hin Hrun; simpl in Hrun.
  - inversion Hrun; subst out. split; [reflexivity|].
    intros i; split; [contradiction | reflexivity].
  - assert (Hlag : (0 <= lag < Z.of_nat (List.length arr))%Z)
      by (apply Hin; now left).
    destruct (delayed_geometric_body impact decay_factor theta arr lag)
      as [arr'| |] eqn:Hbody; cbn [bind] in Hrun; try discriminate.
    apply delayed_body_inv in Hbody.
    rewrite (setitem_in_range _ _ _ Hlag) in Hbody.
    inversion Hbody; subst arr'. clear Hbody.
    destruct (IH (Py.update arr (Z.to_nat lag) (target lag)) out)
      as [Hlen Hnth]; [|exact Hrun|].
    { intros x Hx. rewrite update_length. apply Hin. now right. }
    split; [now rewrite Hlen, update_length|].
    intros i. destruct (Hnth i) as [Hvis Hnot]. split.
    + intros [Heq | Hlater].
      * destruct (in_dec Z.eq_dec (Z.of_nat i) lags) as [Hi | Hi];
          [now apply Hvis|].
        rewrite (Hnot Hi). subst lag. rewrite Nat2Z.id.
        apply update_nth_same. lia.
      * now apply Hvis.
    + intros Hnone. rewrite Hnot by (intros Hx; apply Hnone; now right).
      apply update_nth_other. intros ->. apply Hnone. left. lia.
Qed.

(** The loop runs to its end when nothing leaves the double range. *)
Lemma delayed_loop_ok (lags : list Z) :
  forall arr : list R,
    (forall x, In x lags ->
       (0 <= x < Z.of_nat (List.length arr))%Z /\
       Rabs (decay_factor ^ Py.abs (x - theta)) < float_overflow /\
       Rabs (target x) < float_overflow) ->
    exists out,
      for_each lags (delayed_geometric_body impact decay_factor theta) arr
      = Ok out.
Proof.
  induction lags as [|lag lags IH]; intros arr Hin; simpl.
  - now exists arr.
  - destruct (Hin lag) as [Hlag [Hp Hv]]; [now left|].
    rewrite (delayed_body_setitem _ _ Hp Hv), (setitem_in_range _ _ _ Hlag).
    cbn [bind]. apply IH. intros x Hx. rewrite update_length.
    apply Hin. now right.
Qed.

(** Whenever the call returns, the series has [L] entries and each holds
    its target value. *)
Lemma delayed_geometric_inv (L : Z) (series : list R) :
  delayed_geometric_decay impact decay_factor theta L = Ok series ->
  (0 <= L)%Z /\
  List.length series = Z.to_nat L /\
  forall i : nat, (i < Z.to_nat L)%nat ->
    nth i series 0 = target (Z.of_nat i).
Proof.
  unfold delayed_geometric_decay, Np.zeros.
  destruct (Z.ltb_spec L 0) as [?|HL]; [discriminate|]. cbn [bind].
  intros Hrun. apply delayed_loop_inv in Hrun.
  - destruct Hrun as [Hlen Hnth]. split; [exact HL|]. split.
    + now rewrite Hlen, repeat_length.
    + intros i Hi. apply (Hnth i). apply range_In. lia.
  - intros x Hx. apply range_In in Hx. rewrite repeat_length. lia.
Qed.

Lemma delayed_geometric_spec (L : Z) :
  (0 <= L)%Z ->
  (forall i : Z, (0 <= i < L)%Z ->
     Rabs (decay_factor ^ Py.abs (i - theta)) <= 2 ^ 1000 /\
     Rabs (target i) <= 2 ^ 1000) ->
  exists series,
    delayed_geometric_decay impact decay_factor theta L = Ok series /\
    List.length series = Z.to_nat L /\
    forall i : nat, (i < Z.to_nat L)%nat ->
      nth i series 0 = target (Z.of_nat i).
Proof.
  intros HL Hrange.
  assert (Hrun : exists series,
             delayed_geometric_decay impact decay_factor theta L
             = Ok series).
  { unfold delayed_geometric_decay, Np.zeros.
    destruct (Z.ltb_spec L 0) as [?|_]; [lia|]. cbn [bind].
    apply delayed_loop_ok. intros x Hx. apply range_In in Hx.
    rewrite repeat_length. destruct (Hrange x) as [Hp Hv]; [lia|].
    pose proof float_overflow_above. repeat split; try lia; lra. }
  destruct Hrun as [series Hrun]. exists series. split; [exact Hrun|].
  now destruct (delayed_geometric_inv L series Hrun) as [_ H].
Qed.

End DelayedGeometric.

(** ** The index axis [x_bin] and its quantiles *)

Lemma range_cons (a b : Z) :
  (a < b)%Z -> Py.range a b = a :: Py.range (a + 1) b.
Proof.
  intros Hab. unfold Py.range.
  replace (Z.to_nat (b - a)) with (S (Z.to_nat (b - (a + 1)))) by lia.
  simpl. f_equal; [lia|].
  rewrite <- seq_shift, map_map. apply map_ext. intros k. lia.
Qed.

Lemma range_nil (a b : Z) : (b <= a)%Z -> Py.range a b = [].
Proof.
  intros Hab. unfold Py.range.
  now replace (Z.to_nat (b - a)) with O by lia.
Qed.

Lemma arange_length (a b : Z) :
  List.length (Np.arange a b) = Z.to_nat (b - a).
Proof. unfold Np.arange. now rewrite length_map, range_length. Qed.

Lemma arange_nth (a b : Z) (i : nat) :
  (i < Z.to_nat (b - a))%nat ->
  nth i (Np.arange a b) 0 = IZR (a + Z.of_nat i).
Proof.
  intros Hi. unfold Np.arange, Py.range.
  rewrite map_map.
  rewrite (nth_map_in _ _ _ O) by (rewrite length_seq; lia).
  now rewrite seq_nth by lia.
Qed.

Lemma arange_In (a b : Z) (x : R) :
  In x (Np.arange a b) -> exists z, x = IZR z /\ (a <= z < b)%Z.
Proof.
  unfold Np.arange. rewrite in_map_iff. intros [z [<- Hz]].
  exists z. split; [reflexivity | now apply range_In].
Qed.

(** Sorting an ascending axis leaves it as it is. *)
Lemma sort_arange (n : nat) :
  forall a b : Z, Z.to_nat (b - a) = n ->
    Np.sort (Np.arange a b) = Np.arange a b.
Proof.
  induction n as [|n IH]; intros a b Hn.
  - unfold Np.arange. rewrite range_nil by lia. reflexivity.
  - unfold Np.arange in *. rewrite range_cons by lia.
    simpl. unfold Np.sort in *. rewrite (IH (a + 1)%Z b) by lia.
    destruct (Z_lt_le_dec (a + 1) b) as [Hlt | Hge].
    + rewrite range_cons by lia. simpl.
      rewrite Rleb_true; [reflexivity|]. apply IZR_le. lia.
    + rewrite range_nil by lia. reflexivity.
Qed.

Lemma getitem_in_range (a : list R) (i : Z) :
  (0 <= i < Z.of_nat (List.length a))%Z ->
  Py.getitem a i = Ok (nth (Z.to_nat i) a 0).
Proof.
  intros Hi. unfold Py.getitem.
  destruct (Z.ltb_spec i 0) as [?|_]; [lia|].
  destruct (Z.ltb_spec i 0) as [?|_]; [lia|].
  destruct (Z.leb_spec (Z.of_nat (List.length a)) i) as [?|_]; [lia|].
  reflexivity.
Qed.

Lemma getitem_last (a : list R) :
  (0 < List.length a)%nat ->
  Py.getitem a (-1) = Ok (nth (List.length a - 1) a 0).
Proof.
  intros Ha. unfold Py.getitem. change (-1 <? 0)%Z with true. cbv iota.
  destruct (Z.ltb_spec (Z.of_nat (List.length a) + -1) 0) as [?|_]; [lia|].
  destruct (Z.leb_spec (Z.of_nat (List.length a))
              (Z.of_nat (List.length a) + -1)) as [?|_]; [lia|].
  cbv [orb].
  now replace (Z.to_nat (Z.of_nat (List.length a) + -1))
    with (List.length a - 1)%nat by lia.
Qed.

Lemma lerp_unit_step (a t : R) : Np.lerp a (a + 1) t = a + t.
Proof. unfold Np.lerp. destruct (Rleb (1 / 2) t); simpl; ring. Qed.

Lemma lerp_same (a t : R) : Np.lerp a a t = a.
Proof. unfold Np.lerp. destruct (Rleb (1 / 2) t); simpl; ring. Qed.

(** On the axis [1..periods], the linearly interpolated quantile of
    fraction [q] is [1 + q * (periods - 1)]. *)
Lemma quantile_x_bin (periods : Z) (q : R) :
  (1 <= periods)%Z -> 0 <= q <= 1 ->
  Np.quantile (Np.arange 1 (periods + 1)) q =
  Ok (1 + q * (IZR periods - 1)).
Proof.
  intros Hp [Hq0 Hq1]. unfold Np.quantile.
  rewrite (Rltb_false q 0), (Rltb_false 1 q) by lra. simpl orb. cbv iota.
  rewrite (sort_arange (Z.to_nat periods)) by lia.
  rewrite arange_length.
  replace (Z.of_nat (Z.to_nat (periods + 1 - 1))) with periods by lia.
  assert (Hp1 : 0 <= IZR periods - 1).
  { apply IZR_le in Hp. lra. }
  destruct (Rle_dec (IZR periods - 1) (q * (IZR periods - 1))) as [Hab | Hab].
  - rewrite (Rleb_true _ _ Hab).
    rewrite getitem_last by (rewrite arange_length; lia).
    rewrite arange_length. simpl bind.
    rewrite arange_nth by lia. rewrite lerp_same. f_equal.
    replace (1 + Z.of_nat (Z.to_nat (periods + 1 - 1) - 1))%Z
      with periods by lia.
    nra.
  - rewrite Rleb_false by lra.
    set (vi := q * (IZR periods - 1)) in *.
    assert (Hvi0 : 0 <= vi) by (unfold vi; nra).
    pose proof (Zfloor_bound vi) as [Hfl Hfu].
    assert (Hj0 : (0 <= Zfloor vi)%Z) by (apply Zfloor_lub; simpl; lra).
    assert (Hj1 : (Zfloor vi < periods - 1)%Z).
    { apply lt_IZR. rewrite minus_IZR. lra. }
    rewrite !getitem_in_range by (rewrite arange_length; lia).
    simpl bind. rewrite !arange_nth by lia.
    rewrite !Z2Nat.id by lia.
    replace (IZR (1 + (Zfloor vi + 1))) with (IZR (1 + Zfloor vi) + 1)
      by (rewrite !plus_IZR; ring).
    rewrite lerp_unit_step. f_equal. rewrite plus_IZR. ring.
Qed.

Lemma quantile_bad_fraction (a : list R) (q : R) :
  q < 0 \/ 1 < q -> Np.quantile a q = Raise ValueError.
Proof.
  intros Hq. unfold Np.quantile.
  destruct Hq as [Hq | Hq].
  - now rewrite (Rltb_true q 0 Hq).
  - rewrite (Rltb_true 1 q Hq). now rewrite orb_true_r.
Qed.

Lemma tolerance_nonneg (periods : Z) :
  (1 <= periods)%Z -> 0 <= IZR periods / 2 ^ 50.
Proof.
  intros Hp. apply IZR_le in Hp.
  apply Rmult_le_pos; [lra|]. left. apply Rinv_0_lt_compat, pow_lt. lra.
Qed.

(** ** Python's [round] *)

Lemma round_cases (x : R) :
  (Py.round x = Zfloor x /\ x - IZR (Zfloor x) <= 1 / 2) \/
  (Py.round x = (Zfloor x + 1)%Z /\ 1 / 2 <= x - IZR (Zfloor x)).
Proof.
  unfold Py.round, Rltb.
  destruct (Rlt_dec (x - IZR (Zfloor x)) (1 / 2)) as [H1 | H1];
    [left; split; [reflexivity | lra]|].
  destruct (Rlt_dec (1 / 2) (x - IZR (Zfloor x))) as [H2 | H2];
    [right; split; [reflexivity | lra]|].
  destruct (Z.even (Zfloor x)); [left | right]; split;
    try reflexivity; lra.
Qed.



Lemma round_IZR (z : Z) : Py.round (IZR z) = z.
Proof.
  unfold Py.round. rewrite ZfloorZ.
  rewrite Rltb_true by lra. reflexivity.
Qed.

Lemma round_ge_1 (x : R) : 1 <= x -> (1 <= Py.round x)%Z.
Proof.
  intros Hx. assert (H1 : (1 <= Zfloor x)%Z) by (apply Zfloor_lub; simpl; lra).
  destruct (round_cases x) as [[-> _] | [-> _]]; lia.
Qed.

Lemma round_le_integer (x : R) (n : Z) : x <= IZR n -> (Py.round x <= n)%Z.
Proof.
  intros Hx. pose proof (Zfloor_bound x) as [Hfl Hfu].
  assert (Hf : (Zfloor x <= n)%Z) by (apply le_IZR; lra).
  destruct (round_cases x) as [[-> _] | [-> Hd]]; [exact Hf|].
  assert (Zfloor x < n)%Z; [|lia]. apply lt_IZR. lra.
Qed.

Lemma round_below_half (x : R) (z : Z) :
  IZR z <= x < IZR z + 1 / 2 -> Py.round x = z.
Proof.
  intros Hx. unfold Py.round.
  rewrite (Zfloor_eq z x) by lra. rewrite Rltb_true by lra. reflexivity.
Qed.

(** ** Element-wise evaluation *)

Lemma map_result_ok {A B : Type} (f : A -> result B) (g : A -> B)
  (l : list A) :
  (forall x, In x l -> f x = Ok (g x)) -> map_result f l = Ok (map g l).
Proof.
  induction l as [|x l IH]; intros Hf; simpl; [reflexivity|].
  rewrite (Hf x) by now left. simpl.
  rewrite IH by (intros y Hy; apply Hf; now right). reflexivity.
Qed.

Lemma map_result_length {A B : Type} (f : A -> result B) (l : list A) :
  forall ys, map_result f l = Ok ys -> List.length ys = List.length l.
Proof.
  induction l as [|x l IH]; simpl; intros ys H.
  - now inversion H.
  - destruct (f x) as [y| |]; simpl in H; try discriminate.
    destruct (map_result f l) as [zs| |]; simpl in H; try discriminate.
    inversion H; subst. simpl. f_equal. now apply IH.
Qed.

(** ** The Weibull distribution on its domain *)

Section WeibullDomain.

Variables c s : R.
Hypothesis c_pos : 0 < c.
Hypothesis s_pos : 0 < s.

Lemma argcheck_ok : Stats.argcheck c s = true.
Proof. unfold Stats.argcheck. now rewrite !Rltb_true. Qed.

Lemma weibull_min_cdf_pos (x : R) :
  0 < x ->
  Stats.weibull_min_cdf x c s = Ok (1 - exp (- Rpower (x / s) c)).
Proof.
  intros Hx. unfold Stats.weibull_min_cdf. rewrite argcheck_ok.
  rewrite Rltb_true; [reflexivity|]. now apply Rdiv_lt_0_compat.
Qed.

Lemma weibull_min_pdf_pos (x : R) :
  0 < x ->
  Rpower (x / s) (c - 1) < float_overflow ->
  Stats.weibull_min_pdf x c s =
  Ok (c * Rpower (x / s) (c - 1) * exp (- Rpower (x / s) c) / s).
Proof.
  intros Hx Hfin. unfold Stats.weibull_min_pdf. rewrite argcheck_ok.
  rewrite Rltb_true by now apply Rdiv_lt_0_compat.
  rewrite overflows_false; [reflexivity|].
  rewrite Rabs_pos_eq; [exact Hfin|]. left. apply exp_pos.
Qed.

(** A power that leaves the double range makes the density [nan]. *)
Lemma weibull_min_pdf_overflow (x : R) :
  0 < x ->
  float_overflow <= Rpower (x / s) (c - 1) ->
  Stats.weibull_min_pdf x c s = NonFinite.
Proof.
  intros Hx Hinf. unfold Stats.weibull_min_pdf. rewrite argcheck_ok.
  rewrite Rltb_true by now apply Rdiv_lt_0_compat.
  rewrite overflows_true; [reflexivity|].
  rewrite Rabs_pos_eq; [exact Hinf|]. left. apply exp_pos.
Qed.

(** The survival factor lies strictly between [0] and [1]. *)
Lemma survival_bounds (x : R) : 0 < exp (- Rpower (x / s) c) < 1.
Proof.
  split; [apply exp_pos|].
  rewrite <- exp_0. apply exp_increasing.
  assert (0 < Rpower (x / s) c) by apply exp_pos. lra.
Qed.

(** The density is positive on the positive axis. *)
Lemma density_pos (x : R) :
  0 < c * Rpower (x / s) (c - 1) * exp (- Rpower (x / s) c) / s.
Proof.
  apply Rdiv_lt_0_compat; [|exact s_pos].
  apply Rmult_lt_0_compat; [|apply exp_pos].
  apply Rmult_lt_0_compat; [exact c_pos | apply exp_pos].
Qed.

End WeibullDomain.

(** ** Running products *)

Lemma cumprod_from_length (a : list R) :
  forall acc, List.length (Np.cumprod_from acc a) = List.length a.
Proof. induction a as [|x a IH]; intros acc; simpl; auto. Qed.

(** With factors in [[0,1]] and a non-negative start, every running product
    stays between [0] and the start. *)
Lemma cumprod_from_bounds (a : list R) :
  forall acc, 0 <= acc -> (forall x, In x a -> 0 <= x <= 1) ->
    forall y, In y (Np.cumprod_from acc a) -> 0 <= y <= acc.
Proof.
  induction a as [|x a IH]; intros acc Hacc Hfac y Hy; simpl in Hy;
    [contradiction|].
  assert (Hx : 0 <= x <= 1) by (apply Hfac; now left).
  assert (Hax : 0 <= acc * x <= acc) by nra.
  destruct Hy as [<- | Hy]; [exact Hax|].
  assert (0 <= y <= acc * x); [|lra].
  apply IH; [lra | | exact Hy]. intros z Hz. apply Hfac. now right.
Qed.

Lemma cumprod_from_nonincreasing (a : list R) :
  forall acc, 0 <= acc -> (forall x, In x a -> 0 <= x <= 1) ->
    nonincreasing (Np.cumprod_from acc a).
Proof.
  induction a as [|x a IH]; intros acc Hacc Hfac i Hi; simpl in *; [lia|].
  assert (Hx : 0 <= x <= 1) by (apply Hfac; now left).
  assert (Hax : 0 <= acc * x) by nra.
  assert (Hrest : forall z, In z a -> 0 <= z <= 1)
    by (intros z Hz; apply Hfac; now right).
  destruct i as [|i].
  - destruct a as [|x' a]; simpl in *; [lia|].
    assert (Hx' : 0 <= x' <= 1) by (apply Hrest; now left). nra.
  - apply (IH (acc * x) Hax Hrest). lia.
Qed.

Lemma nonincreasing_map (f : R -> R) (l : list R) :
  (forall x y, x <= y -> f x <= f y) ->
  nonincreasing l -> nonincreasing (map f l).
Proof.
  intros Hf Hl i Hi. rewrite length_map in Hi.
  rewrite !(nth_map_in f l 0 0) by lia. apply Hf. now apply Hl.
Qed.

(** ** Sums *)

Lemma sum_map_scale (k : R) (l : list R) :
  Np.sum (map (fun t => t * k) l) = Np.sum l * k.
Proof.
  induction l as [|x l IH]; simpl; [ring|].
  unfold Np.sum in *. simpl. rewrite IH. ring.
Qed.

Lemma sum_pos (l : list R) :
  l <> [] -> (forall x, In x l -> 0 < x) -> 0 < Np.sum l.
Proof.
  induction l as [|x l IH]; intros Hne Hpos; [congruence|].
  unfold Np.sum in *. simpl.
  assert (0 < x) by (apply Hpos; now left).
  destruct l as [|y l]; [simpl; lra|].
  assert (0 < fold_right Rplus 0 (y :: l)); [|lra].
  apply IH; [congruence|]. intros z Hz. apply Hpos. now right.
Qed.

Lemma sum_ge_member (p : list R) (v : R) :
  (forall u, In u p -> 0 < u) -> In v p -> v <= Np.sum p.
Proof.
  unfold Np.sum. induction p as [|u p IH]; intros Hpos Hv; [contradiction|].
  simpl.
  assert (Hrest : 0 <= fold_right Rplus 0 p).
  { clear IH Hv. induction p as [|a p IHp]; simpl; [lra|].
    assert (0 < a) by (apply Hpos; right; now left).
    assert (0 <= fold_right Rplus 0 p); [|lra].
    apply IHp. intros b [<- | Hb]; apply Hpos;
      [now left | right; now right]. }
  destruct Hv as [<- | Hv]; [lra|].
  assert (0 < u) by (apply Hpos; now left).
  assert (v <= fold_right Rplus 0 p); [|lra].
  apply IH; [|exact Hv]. intros b Hb. apply Hpos. now right.
Qed.

(** ** Minimum, maximum and min-max scaling *)

Lemma fold_min_spec (rest : list R) :
  forall x, is_min (fold_left Rmin rest x) (x :: rest).
Proof.
  induction rest as [|y rest IH]; intros x; simpl.
  - split; [now left|]. intros z [<- | []]. lra.
  - destruct (IH (Rmin x y)) as [Hin Hle]. split.
    + destruct Hin as [Heq | Hin]; [|now right; right].
      rewrite <- Heq. unfold Rmin. destruct (Rle_dec x y); simpl; auto.
    + assert (Hm : fold_left Rmin rest (Rmin x y) <= Rmin x y)
        by (apply Hle; now left).
      intros z [<- | [<- | Hz]].
      * pose proof (Rmin_l x y). lra.
      * pose proof (Rmin_r x y). lra.
      * apply Hle. now right.
Qed.

Lemma fold_max_spec (rest : list R) :
  forall x, is_max (fold_left Rmax rest x) (x :: rest).
Proof.
  induction rest as [|y rest IH]; intros x; simpl.
  - split; [now left|]. intros z [<- | []]. lra.
  - destruct (IH (Rmax x y)) as [Hin Hle]. split.
    + destruct Hin as [Heq | Hin]; [|now right; right].
      rewrite <- Heq. unfold Rmax. destruct (Rle_dec x y); simpl; auto.
    + assert (Hm : Rmax x y <= fold_left Rmax rest (Rmax x y))
        by (apply Hle; now left).
      intros z [<- | [<- | Hz]].
      * pose proof (Rmax_l x y). lra.
      * pose proof (Rmax_r x y). lra.
      * apply Hle. now right.
Qed.

Lemma map_all_zero (f : R -> R) (l : list R) :
  (forall x, In x l -> f x = 0) -> map f l = repeat 0 (List.length l).
Proof.
  induction l as [|x l IH]; intros Hf; simpl; [reflexivity|].
  rewrite (Hf x) by now left. f_equal. apply IH.
  intros y Hy. apply Hf. now right.
Qed.

(** What the scaler computes on a non-empty column: an affine map with a
    positive slope, built from the least and the greatest entry. *)
Lemma minmax_spec (X : list R) :
  X <> [] ->
  exists m M,
    is_min m X /\ is_max M X /\
    Sk.MinMaxScaler_fit_transform X =
    Ok (map (fun x => x * ((1 - 0) / Sk.handle_zeros_in_scale (M - m))
                      + (0 - m * ((1 - 0) / Sk.handle_zeros_in_scale (M - m))))
          X).
Proof.
  destruct X as [|x rest]; [congruence|]. intros _.
  exists (fold_left Rmin rest x), (fold_left Rmax rest x).
  pose proof (fold_min_spec rest x) as Hmin.
  pose proof (fold_max_spec rest x) as Hmax.
  split; [exact Hmin|]. split; [exact Hmax|].
  unfold Sk.MinMaxScaler_fit_transform, Np.amin, Np.amax. cbn [bind].
  set (m := fold_left Rmin rest x) in *.
  set (M := fold_left Rmax rest x) in *.
  assert (Hh : Sk.handle_zeros_in_scale (M - m) <> 0).
  { unfold Sk.handle_zeros_in_scale, Reqb.
    destruct (Req_dec_T (M - m) 0); lra. }
  unfold Np.divide. rewrite (Reqb_false _ _ Hh). reflexivity.
Qed.

(** A constant column is mapped to zeros: its zero range is replaced by a
    unit scale, so no division by zero takes place. *)
Lemma minmax_constant (X : list R) :
  X <> [] -> constant X ->
  Sk.MinMaxScaler_fit_transform X = Ok (repeat 0 (List.length X)).
Proof.
  intros Hne Hc. destruct (minmax_spec X Hne) as [m [M [[Hm _] [_ ->]]]].
  f_equal. apply map_all_zero. intros x Hx.
  rewrite (Hc x m Hx Hm). ring.
Qed.

(** A column with two different entries is mapped onto [[0,1]], the least
    entry to [0] and the greatest to [1], order preserved. *)
Lemma minmax_nonconstant (X : list R) :
  ~ constant X ->
  exists f : R -> R,
    Sk.MinMaxScaler_fit_transform X = Ok (map f X) /\
    (forall x y, x <= y -> f x <= f y) /\
    (exists m, In m X /\ f m = 0) /\
    (exists M, In M X /\ f M = 1) /\
    (forall x, In x X -> 0 <= f x <= 1).
Proof.
  intros Hnc.
  assert (Hne : X <> []).
  { intros ->. apply Hnc. intros x y []. }
  destruct (minmax_spec X Hne) as [m [M [[Hm Hmle] [[HM HMle] Hrun]]]].
  assert (HmM : m < M).
  { destruct (Rlt_dec m M) as [H | H]; [exact H|].
    exfalso. apply Hnc. intros x y Hx Hy.
    pose proof (Hmle x Hx). pose proof (HMle x Hx).
    pose proof (Hmle y Hy). pose proof (HMle y Hy). lra. }
  assert (Hh : Sk.handle_zeros_in_scale (M - m) = M - m).
  { unfold Sk.handle_zeros_in_scale. rewrite Reqb_false; [reflexivity | lra]. }
  rewrite Hh in Hrun.
  assert (Hs : 0 < (1 - 0) / (M - m)).
  { apply Rdiv_lt_0_compat; lra. }
  assert (Hone : M * ((1 - 0) / (M - m)) + (0 - m * ((1 - 0) / (M - m))) = 1)
    by (field; lra).
  set (s := (1 - 0) / (M - m)) in *.
  exists (fun x => x * s + (0 - m * s)). split; [exact Hrun|].
  split; [intros x y Hxy; nra|].
  split; [exists m; split; [exact Hm | ring]|].
  split; [exists M; split; [exact HM | exact Hone]|].
  intros x Hx. pose proof (Hmle x Hx). pose proof (HMle x Hx).
  split; [nra|]. rewrite <- Hone. nra.
Qed.

(** The scaler never lets a non-empty column go up where it went down. *)
Lemma minmax_monotone (X : list R) :
  X <> [] ->
  exists f : R -> R,
    Sk.MinMaxScaler_fit_transform X = Ok (map f X) /\
    (forall x y, x <= y -> f x <= f y).
Proof.
  intros Hne.
  destruct (minmax_spec X Hne) as [m [M [[Hm Hmle] [[HM HMle] Hrun]]]].
  assert (Hs : 0 < (1 - 0) / Sk.handle_zeros_in_scale (M - m)).
  { pose proof (Hmle M HM).
    unfold Sk.handle_zeros_in_scale, Reqb.
    destruct (Req_dec_T (M - m) 0); apply Rdiv_lt_0_compat; lra. }
  set (s := (1 - 0) / Sk.handle_zeros_in_scale (M - m)) in *.
  exists (fun x => x * s + (0 - m * s)). split; [exact Hrun|].
  intros x y Hxy. nra.
Qed.

(** ** The density inside the double range *)

Lemma exp_le_compat (x y : R) : x <= y -> exp x <= exp y.
Proof.
  intros [H | ->]; [left; now apply exp_increasing | right; reflexivity].
Qed.

Lemma exp_INR_le (n : nat) : exp (INR n) <= 3 ^ n.
Proof.
  induction n as [|n IH].
  - simpl. rewrite exp_0. lra.
  - rewrite S_INR, exp_plus. simpl.
    pose proof exp_le_3. pose proof (exp_pos (INR n)). nra.
Qed.

Lemma exp_500_in_range : exp 500 < float_overflow.
Proof.
  apply Rle_lt_trans with (3 ^ 500).
  - change 500 with (IZR (Z.of_nat 500)). rewrite <- INR_IZR_INZ.
    apply exp_INR_le.
  - unfold float_overflow. rewrite !pow_IZR, <- minus_IZR.
    apply IZR_lt. vm_compute. reflexivity.
Qed.

Lemma ln_unit_to (P x : R) : 1 <= x <= P -> 0 <= ln x <= ln P.
Proof.
  intros [H1 HP]. rewrite <- ln_1. split.
  - destruct H1 as [H1 | <-]; [left; apply ln_increasing; lra | lra].
  - destruct HP as [HP | ->]; [left; apply ln_increasing; lra | lra].
Qed.

(** For [x] and [s] between [1] and [P], the power [(x / s) ^ z] is at most
    [exp (|z| * ln P)]. *)
Lemma rpower_ratio_in_range (P x s z : R) :
  1 <= x <= P -> 1 <= s <= P -> Rabs z * ln P <= 500 ->
  Rpower (x / s) z < float_overflow.
Proof.
  intros Hx Hs Hz. apply Rle_lt_trans with (exp 500);
    [|exact exp_500_in_range].
  unfold Rpower. apply exp_le_compat.
  unfold Rdiv. rewrite ln_mult, ln_Rinv;
    [| lra | lra | apply Rinv_0_lt_compat; lra].
  pose proof (ln_unit_to P x Hx) as Hlx.
  pose proof (ln_unit_to P s Hs) as Hls.
  apply Rle_trans with (Rabs z * ln P); [|exact Hz].
  apply Rle_trans with (Rabs (z * (ln x + - ln s))); [apply Rle_abs|].
  rewrite Rabs_mult. apply Rmult_le_compat_l; [apply Rabs_pos|].
  unfold Rabs. destruct Rcase_abs; lra.
Qed.

(** ** The weight vector of the Weibull transformation *)

Lemma In_removelast {A : Type} (l : list A) (x : A) :
  In x (removelast l) -> In x l.
Proof.
  induction l as [|y l IH]; simpl; [easy|].
  destruct l as [|z l]; [easy|]. intros [<- | H]; [now left|].
  right. now apply IH.
Qed.

Lemma removelast_length {A : Type} (l : list A) :
  List.length (removelast l) = (List.length l - 1)%nat.
Proof.
  induction l as [|y l IH]; simpl; [reflexivity|].
  destruct l as [|z l]; [reflexivity|]. simpl in *. rewrite IH. lia.
Qed.

Lemma x_bin_pos (periods : Z) (x : R) :
  In x (Np.arange 1 (periods + 1)) -> 0 < x.
Proof.
  intros Hx. apply arange_In in Hx. destruct Hx as [z [-> Hz]].
  apply IZR_lt. lia.
Qed.

Lemma x_bin_nonempty (periods : Z) :
  (1 <= periods)%Z -> Np.arange 1 (periods + 1) <> [].
Proof.
  intros Hp H. apply (f_equal (@List.length R)) in H.
  rewrite arange_length in H. simpl in H. lia.
Qed.

Section WeightVector.

Variables shape scale : R.
Variable periods : Z.
Variable adstock_type : string.
Hypothesis periods_pos : (1 <= periods)%Z.
Hypothesis scale_unit : 0 <= scale <= 1.

#[local] Abbreviation x_bin := (Np.arange 1 (periods + 1)).
#[local] Abbreviation transformed_scale :=
  (Py.round (1 + scale * (IZR periods - 1))).

Lemma transformed_scale_pos : 0 < IZR transformed_scale.
Proof.
  apply IZR_lt. assert (1 <= transformed_scale)%Z; [|lia].
  apply round_ge_1. apply IZR_le in periods_pos. nra.
Qed.

Lemma transformed_scale_range : 1 <= IZR transformed_scale <= IZR periods.
Proof.
  assert (Hp1 : 1 <= IZR periods) by (apply IZR_le in periods_pos; lra).
  split; apply IZR_le.
  - apply round_ge_1. nra.
  - apply round_le_integer. nra.
Qed.

(** A shape for which [periods ^ |shape - 1|] is at most [exp 500] keeps
    every density inside the double range. *)
Lemma density_in_range :
  Rabs (shape - 1) * ln (IZR periods) <= 500 ->
  forall x, In x x_bin ->
    Rpower (x / IZR transformed_scale) (shape - 1) < float_overflow.
Proof.
  intros Hz x Hx. apply (rpower_ratio_in_range (IZR periods));
    [| exact transformed_scale_range | exact Hz].
  apply arange_In in Hx. destruct Hx as [z [-> Hzr]].
  split; apply IZR_le; lia.
Qed.

(** The degenerate arm: zeros, whatever the mode. *)
Lemma theta_degenerate :
  shape = 0 \/ scale = 0 ->
  theta_vec_cum shape scale periods adstock_type =
  Ok (Some (repeat 0 (Z.to_nat periods))).
Proof.
  intros Hdeg. unfold theta_vec_cum.
  rewrite quantile_x_bin by assumption. cbn [bind].
  assert (Hb : orb (Reqb shape 0) (Reqb scale 0) = true).
  { destruct Hdeg as [H | H]; rewrite (Reqb_true _ _ H);
      [reflexivity | apply orb_true_r]. }
  rewrite Hb. unfold Np.zeros.
  destruct (Z.ltb_spec periods 0) as [?|_]; [lia | reflexivity].
Qed.

(** The CDF arm: running products of survival factors taken one index
    back, the Weibull scale being [transformed_scale]. *)
Lemma theta_cdf :
  0 < shape -> scale <> 0 -> Py.lower adstock_type = "cdf"%string ->
  theta_vec_cum shape scale periods adstock_type =
  Ok (Some (Np.cumprod
              (1 :: map (fun p => 1 - p)
                      (map (fun x => 1 - exp (- Rpower
                                                 (x / IZR transformed_scale)
                                                 shape))
                         (removelast x_bin))))).
Proof.
  intros Hshape Hscale Hmode. unfold theta_vec_cum.
  rewrite quantile_x_bin by assumption. cbn [bind].
  rewrite !Reqb_false by lra. cbn [orb]. rewrite Hmode.
  change ("cdf" =? "cdf")%string with true. cbv iota.
  erewrite map_result_ok; [reflexivity|].
  intros x Hx. apply weibull_min_cdf_pos;
    [exact Hshape | exact transformed_scale_pos |].
  apply (x_bin_pos periods). now apply In_removelast.
Qed.

(** The PDF arm: densities on the whole axis, divided by their sum. *)
Lemma theta_pdf :
  0 < shape -> scale <> 0 -> Py.lower adstock_type = "pdf"%string ->
  (forall x, In x x_bin ->
     Rpower (x / IZR transformed_scale) (shape - 1) < float_overflow) ->
  let p := map (fun x => shape
                         * Rpower (x / IZR transformed_scale) (shape - 1)
                         * exp (- Rpower (x / IZR transformed_scale) shape)
                         / IZR transformed_scale) x_bin in
  0 < Np.sum p /\
  theta_vec_cum shape scale periods adstock_type =
  Ok (Some (map (fun v => v / Np.sum p) p)).
Proof.
  intros Hshape Hscale Hmode Hfin p.
  assert (Hsum : 0 < Np.sum p).
  { apply sum_pos.
    - intros H. apply (f_equal (@List.length R)) in H.
      unfold p in H. rewrite length_map, arange_length in H.
      simpl in H. lia.
    - intros v Hv. unfold p in Hv. apply in_map_iff in Hv.
      destruct Hv as [x [<- _]].
      apply density_pos; [exact Hshape | exact transformed_scale_pos]. }
  split; [exact Hsum|]. unfold theta_vec_cum.
  rewrite quantile_x_bin by assumption. cbn [bind].
  rewrite !Reqb_false by lra. cbn [orb]. rewrite Hmode.
  change ("pdf" =? "cdf")%string with false.
  change ("pdf" =? "pdf")%string with true. cbv iota.
  rewrite (map_result_ok _
             (fun x => shape
                       * Rpower (x / IZR transformed_scale) (shape - 1)
                       * exp (- Rpower (x / IZR transformed_scale) shape)
                       / IZR transformed_scale)).
  - cbn [bind]. fold p.
    rewrite (map_result_ok _ (fun v => v / Np.sum p)); [reflexivity|].
    intros v _. unfold Np.divide. rewrite Reqb_false; [reflexivity | lra].
  - intros x Hx. apply weibull_min_pdf_pos;
      [exact Hshape | exact transformed_scale_pos | | now apply Hfin].
    now apply (x_bin_pos periods).
Qed.

(** Any other mode leaves the local unassigned. *)
Lemma theta_unassigned :
  shape <> 0 -> scale <> 0 ->
  Py.lower adstock_type <> "cdf"%string ->
  Py.lower adstock_type <> "pdf"%string ->
  theta_vec_cum shape scale periods adstock_type = Ok None.
Proof.
  intros Hshape Hscale Hcdf Hpdf. unfold theta_vec_cum.
  rewrite quantile_x_bin by assumption. cbn [bind].
  rewrite !Reqb_false by assumption. cbn [orb].
  apply String.eqb_neq in Hcdf, Hpdf. now rewrite Hcdf, Hpdf.
Qed.

End WeightVector.

(** Outside its domain the quantile raises: an empty axis has no order
    statistic, and a fraction outside [[0,1]] is rejected. *)
Lemma quantile_x_bin_domain (periods : Z) (q v : R) :
  Np.quantile (Np.arange 1 (periods + 1)) q = Ok v ->
  (1 <= periods)%Z /\ 0 <= q <= 1.
Proof.
  unfold Np.quantile, Rltb.
  destruct (Rlt_dec q 0) as [H0 | H0]; [discriminate|].
  destruct (Rlt_dec 1 q) as [H1 | H1]; [discriminate|]. cbn [orb].
  intros H. split; [|lra].
  destruct (Z_lt_le_dec periods 1) as [Hlt | Hge]; [exfalso | exact Hge].
  revert H. unfold Np.arange. rewrite range_nil by lia.
  cbn [map List.length Z.of_nat Np.sort fold_right].
  rewrite Rleb_true by lra. discriminate.
Qed.

Lemma quantile_x_bin_raises (periods : Z) (q : R) :
  ~ ((1 <= periods)%Z /\ 0 <= q <= 1) ->
  exists e, Np.quantile (Np.arange 1 (periods + 1)) q = Raise e.
Proof.
  intros Hdom. unfold Np.quantile, Rltb.
  destruct (Rlt_dec q 0) as [H0 | H0]; [now exists ValueError|].
  destruct (Rlt_dec 1 q) as [H1 | H1]; [now exists ValueError|]. cbn [orb].
  assert (Hp : (periods < 1)%Z).
  { destruct (Z_lt_le_dec periods 1); [assumption|].
    exfalso. apply Hdom. split; [assumption | lra]. }
  unfold Np.arange. rewrite range_nil by lia.
  cbn [map List.length Z.of_nat Np.sort fold_right].
  rewrite Rleb_true by lra. now exists IndexError.
Qed.

(** Whenever a weight vector is produced, the inputs were in the domain of
    the quantile and the vector has one entry per period. *)
Lemma theta_domain (shape scale : R) (periods : Z) (adstock_type : string)
  (v : option (list R)) :
  theta_vec_cum shape scale periods adstock_type = Ok v ->
  (1 <= periods)%Z /\ 0 <= scale <= 1.
Proof.
  unfold theta_vec_cum.
  destruct (Np.quantile (Np.arange 1 (periods + 1)) scale) as [q| |] eqn:Hq;
    try discriminate.
  intros _. now apply quantile_x_bin_domain in Hq.
Qed.

Lemma theta_length (shape scale : R) (periods : Z) (adstock_type : string)
  (w : list R) :
  theta_vec_cum shape scale periods adstock_type = Ok (Some w) ->
  List.length w = Z.to_nat periods.
Proof.
  intros H. destruct (theta_domain _ _ _ _ _ H) as [Hp Hs].
  revert H. unfold theta_vec_cum.
  rewrite quantile_x_bin by assumption. cbn [bind].
  destruct (orb (Reqb shape 0) (Reqb scale 0)).
  { unfold Np.zeros. destruct (Z.ltb_spec periods 0) as [?|_]; [lia|].
    cbn [bind]. intros H. inversion H. apply repeat_length. }
  destruct (String.eqb (Py.lower adstock_type) "cdf").
  { destruct (map_result _ (removelast _)) as [c| |] eqn:Hc;
      try discriminate.
    cbn [bind]. intros H. inversion H.
    unfold Np.cumprod. rewrite cumprod_from_length. simpl.
    rewrite length_map, (map_result_length _ _ _ Hc).
    rewrite removelast_length, arange_length. lia. }
  destruct (String.eqb (Py.lower adstock_type) "pdf"); [|discriminate].
  destruct (map_result _ (Np.arange _ _)) as [p| |] eqn:Hpdf;
    try discriminate.
  cbn [bind].
  destruct (map_result _ p) as [d| |] eqn:Hd; try discriminate.
  cbn [bind]. intros H. inversion H; subst.
  rewrite (map_result_length _ _ _ Hd), (map_result_length _ _ _ Hpdf).
  rewrite arange_length. lia.
Qed.

(** Lines 90-98 once the weight vector is known. *)
Lemma weibull_of_weights (impact shape scale : R) (periods : Z)
  (adstock_type : string) (normalised : bool) (w : list R) :
  theta_vec_cum shape scale periods adstock_type = Ok (Some w) ->
  weibull_adstock_decay impact shape scale periods adstock_type normalised =
  if normalised then
    norm <- Sk.MinMaxScaler_fit_transform w ;;
    Ok (map (fun t => t * impact) norm)
  else Ok (map (fun t => t * impact) w).
Proof.
  intros H. unfold weibull_adstock_decay. rewrite H.
  now destruct normalised.
Qed.

Lemma nonempty_of_length (w : list R) (periods : Z) :
  (1 <= periods)%Z -> List.length w = Z.to_nat periods -> w <> [].
Proof. intros Hp Hl ->. simpl in Hl. lia. Qed.

Lemma constant_repeat (x : R) (n : nat) : constant (repeat x n).
Proof.
  intros a b Ha Hb. apply repeat_spec in Ha, Hb. congruence.
Qed.

Lemma map_scale_zeros (k : R) (n : nat) :
  map (fun t => t * k) (repeat 0 n) = repeat 0 n.
Proof. rewrite map_repeat. f_equal. ring. Qed.

(** * Properties of the geometric transformations *)

Lemma repeated_product_shift (decay_factor cur : float) (k : nat) :
  F64.repeated_product decay_factor (PrimFloat.mul cur decay_factor) k =
  F64.repeated_product decay_factor cur (S k).
Proof.
  unfold F64.repeated_product. induction k as [|k IH]; simpl in *;
    [reflexivity | now rewrite IH].
Qed.

(** The loop on doubles: one rounded product per turn. *)
Lemma f64_geometric_loop (decay_factor : float) (l : list Z) :
  forall (cur : float) (acc : list float),
    fold_left (F64.geometric_body decay_factor) l (cur, acc) =
    (F64.repeated_product decay_factor cur (List.length l),
     acc ++ map (F64.repeated_product decay_factor cur)
              (seq 1 (List.length l))).
Proof.
  induction l as [|x l IH]; intros cur acc; simpl.
  - now rewrite app_nil_r.
  - change (F64.geometric_body decay_factor (cur, acc) x)
      with (PrimFloat.mul cur decay_factor,
            acc ++ [PrimFloat.mul cur decay_factor]).
    rewrite IH, repeated_product_shift. f_equal.
    rewrite <- app_assoc. cbn [app map seq]. f_equal. f_equal.
    rewrite <- (seq_shift (List.length l) 1), map_map.
    apply map_ext. intros k. apply repeated_product_shift.
Qed.

Lemma f64_geometric_unfold (impact decay_factor : float) (periods : Z) :
  F64.geometric_adstock_decay impact decay_factor periods =
  impact :: map (F64.repeated_product decay_factor impact)
              (seq 1 (Z.to_nat (periods - 1))).
Proof.
  unfold F64.geometric_adstock_decay.
  rewrite f64_geometric_loop, range_length. reflexivity.
Qed.

Lemma f64_geometric_nth (impact decay_factor : float) (periods : Z)
  (i : nat) :
  (1 <= periods)%Z -> (i < Z.to_nat periods)%nat ->
  nth i (F64.geometric_adstock_decay impact decay_factor periods) 0%float =
  F64.repeated_product decay_factor impact i.
Proof.
  intros Hp Hi. rewrite f64_geometric_unfold.
  destruct i as [|i]; simpl; [reflexivity|].
  rewrite (nth_map_in _ _ _ O) by (rewrite length_seq; lia).
  now rewrite seq_nth by lia.
Qed.

Set Warnings "-inexact-float".

(** C7, as the code has it.  For [periods >= 1], on doubles,
    [geometric_adstock_decay] returns exactly [periods] values; the first
    is [impact] and each later one is the previous one times
    [decay_factor], the product being rounded to a double at every turn; so
    the value at index [i] is the [i]-fold rounded product, which is
    [impact * decay_factor ^ i] in exact arithmetic only; and
    [geometric_adstock_decay 100 0.3 5] is
    [[100; 30; 9; 2.6999999999999997; 0.8099999999999999]]. *)
Theorem geometric_adstock_decay_recurrence
  (impact decay_factor : float) (periods : Z) :
  (1 <= periods)%Z ->
  let series := F64.geometric_adstock_decay impact decay_factor periods in
  List.length series = Z.to_nat periods /\
  nth 0 series 0%float = impact /\
  (forall i : nat, (0 < i < Z.to_nat periods)%nat ->
     nth i series 0%float
     = PrimFloat.mul (nth (i - 1) series 0%float) decay_factor) /\
  (forall i : nat, (i < Z.to_nat periods)%nat ->
     nth i series 0%float = F64.repeated_product decay_factor impact i) /\
  F64.geometric_adstock_decay 100 0.3 5
  = [100; 30; 9; 2.6999999999999997; 0.8099999999999999]%float.
Proof.
  intros Hp series. subst series.
  split.
  { rewrite f64_geometric_unfold. simpl. rewrite length_map, length_seq. lia. }
  split; [now rewrite f64_geometric_nth by lia|].
  split.
  { intros i Hi. rewrite !f64_geometric_nth by lia.
    replace i with (S (i - 1)) at 1 by lia. reflexivity. }
  split; [intros i Hi; now apply f64_geometric_nth|].
  vm_compute. reflexivity.
Qed.

Lemma geometric_adstock_decay_recurrence_witness :
  (1 <= 5)%Z /\
  nth 3 (F64.geometric_adstock_decay 100 0.3 5) 0%float
  = PrimFloat.mul (nth (3 - 1) (F64.geometric_adstock_decay 100 0.3 5)
                     0%float) 0.3.
Proof.
  split; [lia|].
  apply (geometric_adstock_decay_recurrence 100 0.3 5); simpl; lia.
Defined.

(** C7 fails as stated: on the doubles [100] and [0.3] the fourth and the
    fifth value are [2.6999999999999997] and [0.8099999999999999], not the
    doubles [2.7] and [0.81]. *)
Lemma geometric_adstock_decay_scenario_rounded :
  F64.geometric_adstock_decay 100 0.3 5 <> [100; 30; 9; 2.7; 0.81]%float /\
  nth 3 (F64.geometric_adstock_decay 100 0.3 5) 0%float
  = 2.6999999999999997%float /\
  nth 4 (F64.geometric_adstock_decay 100 0.3 5) 0%float
  = 0.8099999999999999%float.
Proof.
  split; [|split; vm_compute; reflexivity].
  intros H.
  apply (f_equal (fun l => PrimFloat.eqb (nth 3 l 0%float) 2.7%float)) in H.
  vm_compute in H. discriminate.
Qed.

(** C8.  For [decay_factor] in [[0,1]], [impact >= 0] and [periods >= 1],
    the magnitudes of the output of [geometric_adstock_decay] never go up:
    [|output[i+1]| <= |output[i]|] for every [i] in [0..periods-2]. *)
Theorem geometric_adstock_decay_nonincreasing
  (impact decay_factor : R) (periods : Z) (i : nat) :
  0 <= decay_factor <= 1 -> 0 <= impact -> (1 <= periods)%Z ->
  (S i < Z.to_nat periods)%nat ->
  Rabs (nth (S i) (geometric_adstock_decay impact decay_factor periods) 0)
  <= Rabs (nth i (geometric_adstock_decay impact decay_factor periods) 0).
Proof.
  intros Hd Himp Hp Hi. rewrite !geometric_nth by lia.
  assert (Hpow : 0 <= decay_factor ^ i) by (apply pow_le; lra).
  assert (Hcur : 0 <= impact * decay_factor ^ i)
    by now apply Rmult_le_pos.
  replace (impact * decay_factor ^ S i)
    with (impact * decay_factor ^ i * decay_factor) by (simpl; ring).
  rewrite !Rabs_pos_eq; nra.
Qed.

Lemma geometric_adstock_decay_nonincreasing_witness :
  Rabs (nth 1 (geometric_adstock_decay 100 (3 / 10) 5) 0)
  <= Rabs (nth 0 (geometric_adstock_decay 100 (3 / 10) 5) 0).
Proof.
  apply (geometric_adstock_decay_nonincreasing 100 (3 / 10) 5 0);
    simpl; try lra; lia.
Defined.




(** * Properties of the Weibull transformation *)




(** C4, as the code has it.  For [periods >= 1] and [scale] in [[0,1]],
    whatever the impact, the mode and the normalisation flag, [shape = 0]
    or [scale = 0] makes [weibull_adstock_decay] return the all-zero series
    of length [periods]. *)
Theorem weibull_degenerate_zero (impact shape scale : R) (periods : Z)
  (adstock_type : string) (normalised : bool) :
  (1 <= periods)%Z -> 0 <= scale <= 1 ->
  shape = 0 \/ scale = 0 ->
  weibull_adstock_decay impact shape scale periods adstock_type normalised
  = Ok (repeat 0 (Z.to_nat periods)).
Proof.
  intros Hp Hs Hdeg.
  rewrite (weibull_of_weights _ _ _ _ _ _ _
             (theta_degenerate shape scale periods adstock_type Hp Hs Hdeg)).
  destruct normalised.
  - rewrite minmax_constant.
    + cbn [bind]. now rewrite repeat_length, map_scale_zeros.
    + apply (nonempty_of_length _ periods Hp). apply repeat_length.
    + apply constant_repeat.
  - now rewrite map_scale_zeros.
Qed.

Lemma weibull_degenerate_zero_witness :
  (1 <= 3)%Z /\ 0 <= 1 / 2 <= 1 /\
  weibull_adstock_decay 100 0 (1 / 2) 3 "pdf" true = Ok [0; 0; 0].
Proof.
  split; [lia|]. split; [lra|].
  apply (weibull_degenerate_zero 100 0 (1 / 2) 3 "pdf" true);
    [lia | lra | now left].
Defined.

(** C4 fails for a scale outside [[0,1]]: the quantile of line 75 is taken
    before the degenerate test of line 78, and with [shape = 0] and
    [scale = 1.5] it raises [ValueError]. *)
Lemma weibull_degenerate_scale_out_of_range :
  weibull_adstock_decay 100 0 (3 / 2) 3 "pdf" false = Raise ValueError.
Proof.
  unfold weibull_adstock_decay, theta_vec_cum.
  rewrite quantile_bad_fraction by (right; lra). reflexivity.
Qed.

(** C9.  With [normalised = True], a constant weight vector is scaled with
    a unit scale in place of its zero range: the call returns the all-zero
    series of length [periods], and neither raises nor divides by zero.
    The degenerate vector of [shape = 0] or [scale = 0] is such a vector. *)
Theorem weibull_normalised_constant (impact shape scale : R) (periods : Z)
  (adstock_type : string) :
  (forall w : list R,
     theta_vec_cum shape scale periods adstock_type = Ok (Some w) ->
     constant w ->
     weibull_adstock_decay impact shape scale periods adstock_type true
     = Ok (repeat 0 (Z.to_nat periods))) /\
  ((1 <= periods)%Z -> 0 <= scale <= 1 -> shape = 0 \/ scale = 0 ->
   exists w : list R,
     theta_vec_cum shape scale periods adstock_type = Ok (Some w) /\
     constant w).
Proof.
  split.
  - intros w Hw Hc.
    destruct (theta_domain _ _ _ _ _ Hw) as [Hp _].
    pose proof (theta_length _ _ _ _ _ Hw) as Hlen.
    rewrite (weibull_of_weights _ _ _ _ _ _ _ Hw).
    rewrite minmax_constant;
      [| exact (nonempty_of_length _ _ Hp Hlen) | exact Hc].
    cbn [bind]. now rewrite Hlen, map_scale_zeros.
  - intros Hp Hs Hdeg. exists (repeat 0 (Z.to_nat periods)).
    split; [now apply theta_degenerate | apply constant_repeat].
Qed.

Lemma weibull_normalised_constant_witness :
  weibull_adstock_decay 100 2 0 3 "cdf" true = Ok [0; 0; 0].
Proof.
  apply (proj1 (weibull_normalised_constant 100 2 0 3 "cdf")
           (repeat 0 (Z.to_nat 3))).
  - apply theta_degenerate; [lia | lra | now right].
  - apply constant_repeat.
Defined.

(** C10.  With [shape <> 0] and [scale <> 0], a mode whose lower-cased form
    is neither ["cdf"] nor ["pdf"] makes the call raise: the weight vector
    is read before any assignment.  So a series is returned only for a mode
    that is ["cdf"] or ["pdf"] up to letter case, and ["CDF"], ["PDF"] give
    what ["cdf"], ["pdf"] give. *)
Theorem weibull_unknown_mode_raises (impact shape scale : R) (periods : Z)
  (adstock_type : string) (normalised : bool) :
  shape <> 0 -> scale <> 0 ->
  (Py.lower adstock_type <> "cdf"%string ->
   Py.lower adstock_type <> "pdf"%string ->
   (exists e,
      weibull_adstock_decay impact shape scale periods adstock_type
        normalised = Raise e) /\
   ((1 <= periods)%Z -> 0 <= scale <= 1 ->
    weibull_adstock_decay impact shape scale periods adstock_type
      normalised = Raise UnboundLocalError)) /\
  (forall out : list R,
     weibull_adstock_decay impact shape scale periods adstock_type
       normalised = Ok out ->
     Py.lower adstock_type = "cdf"%string \/
     Py.lower adstock_type = "pdf"%string) /\
  weibull_adstock_decay impact shape scale periods "CDF" normalised =
  weibull_adstock_decay impact shape scale periods "cdf" normalised /\
  weibull_adstock_decay impact shape scale periods "PDF" normalised =
  weibull_adstock_decay impact shape scale periods "pdf" normalised.
Proof.
  intros Hshape Hscale.
  assert (Hbad : Py.lower adstock_type <> "cdf"%string ->
                 Py.lower adstock_type <> "pdf"%string ->
                 (exists e,
                    weibull_adstock_decay impact shape scale periods
                      adstock_type normalised = Raise e) /\
                 ((1 <= periods)%Z -> 0 <= scale <= 1 ->
                  weibull_adstock_decay impact shape scale periods
                    adstock_type normalised = Raise UnboundLocalError)).
  { intros Hcdf Hpdf.
    assert (Hin : (1 <= periods)%Z -> 0 <= scale <= 1 ->
                  weibull_adstock_decay impact shape scale periods
                    adstock_type normalised = Raise UnboundLocalError).
    { intros Hp Hs. unfold weibull_adstock_decay.
      rewrite theta_unassigned by assumption.
      now destruct normalised. }
    split; [|exact Hin].
    destruct (Z_lt_le_dec periods 1) as [Hp | Hp].
    - destruct (quantile_x_bin_raises periods scale) as [e He]; [lia|].
      exists e. unfold weibull_adstock_decay, theta_vec_cum.
      now rewrite He.
    - destruct (Rle_dec 0 scale) as [H0 | H0];
        [destruct (Rle_dec scale 1) as [H1 | H1]|].
      + exists UnboundLocalError. apply Hin; [exact Hp | lra].
      + destruct (quantile_x_bin_raises periods scale) as [e He]; [lra|].
        exists e. unfold weibull_adstock_decay, theta_vec_cum.
        now rewrite He.
      + destruct (quantile_x_bin_raises periods scale) as [e He]; [lra|].
        exists e. unfold weibull_adstock_decay, theta_vec_cum.
        now rewrite He. }
  split; [exact Hbad|]. split; [|split; reflexivity].
  intros out Hout.
  destruct (string_dec (Py.lower adstock_type) "cdf") as [Hc | Hc];
    [now left|].
  destruct (string_dec (Py.lower adstock_type) "pdf") as [Hd | Hd];
    [now right|].
  destruct (Hbad Hc Hd) as [[e He] _]. congruence.
Qed.

Lemma weibull_unknown_mode_raises_witness :
  weibull_adstock_decay 100 2 (1 / 2) 4 "exp" true = Raise UnboundLocalError.
Proof.
  apply (weibull_unknown_mode_raises 100 2 (1 / 2) 4 "exp" true);
    try lra; try lia; discriminate.
Defined.

(** The weight vector of the call [shape = 1], [scale = 1], [periods = 2]
    in CDF mode: [transformed_scale] is [2], the one survival factor is
    taken at [x = 1]. *)
Lemma cdf_weights_example :
  exists e : R,
    0 < e < 1 /\
    theta_vec_cum 1 1 2 "cdf" = Ok (Some [1 * 1; 1 * 1 * (1 - (1 - e))]).
Proof.
  exists (exp (- Rpower (1 / IZR (Py.round (1 + 1 * (IZR 2 - 1)))) 1)).
  split; [apply survival_bounds|].
  rewrite theta_cdf; try lra; try lia; reflexivity.
Qed.

(** C2, as the code has it.  For [impact >= 0], [shape > 0], [scale] in
    [(0,1]], [periods >= 1] and either value of the flag, the CDF-mode
    output has [periods] entries and never goes up from one period to the
    next: the weights are running products of survival factors in [[0,1]],
    and both the min-max scaling and the multiplication by a non-negative
    impact keep the order. *)
Theorem weibull_cdf_nonincreasing (impact shape scale : R) (periods : Z)
  (adstock_type : string) (normalised : bool) :
  0 <= impact -> 0 < shape -> 0 < scale <= 1 -> (1 <= periods)%Z ->
  Py.lower adstock_type = "cdf"%string ->
  exists out : list R,
    weibull_adstock_decay impact shape scale periods adstock_type normalised
    = Ok out /\
    List.length out = Z.to_nat periods /\
    nonincreasing out.
Proof.
  intros Himp Hshape Hscale Hp Hmode.
  assert (Hs : 0 <= scale <= 1) by lra.
  assert (Hs0 : scale <> 0) by lra.
  pose proof (theta_cdf shape scale periods adstock_type Hp Hs
                Hshape Hs0 Hmode) as Hw.
  set (w := Np.cumprod _) in Hw.
  pose proof (theta_length _ _ _ _ _ Hw) as Hlen.
  assert (Hmono : nonincreasing w).
  { apply cumprod_from_nonincreasing; [lra|].
    intros x [<- | Hx]; [lra|].
    apply in_map_iff in Hx. destruct Hx as [p [<- Hp']].
    apply in_map_iff in Hp'. destruct Hp' as [y [<- _]].
    pose proof (survival_bounds shape
                  (IZR (Py.round (1 + scale * (IZR periods - 1)))) y).
    lra. }
  assert (Hscaled : forall x y, x <= y -> x * impact <= y * impact)
    by (intros x y Hxy; nra).
  rewrite (weibull_of_weights _ _ _ _ _ _ _ Hw).
  destruct normalised.
  - destruct (minmax_monotone w (nonempty_of_length _ _ Hp Hlen))
      as [f [-> Hf]].
    cbn [bind]. eexists. split; [reflexivity|]. split.
    + now rewrite !length_map.
    + apply nonincreasing_map; [exact Hscaled|].
      now apply nonincreasing_map.
  - eexists. split; [reflexivity|]. split.
    + now rewrite length_map.
    + now apply nonincreasing_map.
Qed.

Lemma weibull_cdf_nonincreasing_witness :
  exists out : list R,
    weibull_adstock_decay 100 2 (1 / 2) 5 "CDF" true = Ok out /\
    List.length out = Z.to_nat 5 /\
    nonincreasing out.
Proof.
  apply (weibull_cdf_nonincreasing 100 2 (1 / 2) 5 "CDF" true);
    try lra; try lia; reflexivity.
Defined.

(** C2 fails for a negative impact: with [impact = -1], [shape = 1],
    [scale = 1], [periods = 2], unnormalised CDF mode, the output is
    [[-1; -e]] with [0 < e < 1], which goes up. *)
Lemma weibull_cdf_negative_impact_increases :
  exists out : list R,
    weibull_adstock_decay (-1) 1 1 2 "cdf" false = Ok out /\
    nth 0 out 0 < nth 1 out 0 /\
    ~ nonincreasing out.
Proof.
  destruct cdf_weights_example as [e [He Hw]].
  rewrite (weibull_of_weights _ _ _ _ _ _ _ Hw).
  eexists. split; [reflexivity|]. simpl. split; [lra|].
  intros Hmono. specialize (Hmono O). simpl in Hmono.
  specialize (Hmono ltac:(lia)). lra.
Qed.



Lemma Rpower_one_base (z : R) : Rpower 1 z = 1.
Proof. unfold Rpower. now rewrite ln_1, Rmult_0_r, exp_0. Qed.

Lemma tiny_pos : 0 < / 2 ^ 1000.
Proof. apply Rinv_0_lt_compat, pow_lt. lra. Qed.

Lemma tiny_le_one : / 2 ^ 1000 <= 1.
Proof.
  rewrite <- Rinv_1. apply Rinv_le_contravar; [lra|].
  apply pow_R1_Rle. lra.
Qed.

(** C3, as the code has it.  For [scale] in [(0,1]], [periods >= 1] and a
    shape that keeps SciPy's density a finite, non-zero double
    ([shape >= 2^-1000] and [|shape - 1| * ln periods <= 500]), the PDF-mode
    weight vector is, entry by entry, the density divided by the sum of the
    densities, the Weibull scale being an integer of [1..periods]; every
    weight lies in [[0,1]]; the weights sum to [1] within [periods / 2^50]
    (the sum is [1] in exact arithmetic, and off by rounding in doubles);
    and the unnormalised output is that vector times [impact]. *)
Theorem weibull_pdf_sums_to_one (shape scale : R) (periods : Z)
  (adstock_type : string) :
  / 2 ^ 1000 <= shape ->
  Rabs (shape - 1) * ln (IZR periods) <= 500 ->
  0 < scale <= 1 -> (1 <= periods)%Z ->
  Py.lower adstock_type = "pdf"%string ->
  exists (transformed_scale : Z) (p w : list R),
    (1 <= transformed_scale <= periods)%Z /\
    p = map (fun x => shape
                      * Rpower (x / IZR transformed_scale) (shape - 1)
                      * exp (- Rpower (x / IZR transformed_scale) shape)
                      / IZR transformed_scale)
          (Np.arange 1 (periods + 1)) /\
    w = map (fun v => v / Np.sum p) p /\
    theta_vec_cum shape scale periods adstock_type = Ok (Some w) /\
    (forall x, In x w -> 0 <= x <= 1) /\
    Rabs (Np.sum w - 1) <= IZR periods / 2 ^ 50 /\
    forall impact : R,
      weibull_adstock_decay impact shape scale periods adstock_type false
      = Ok (map (fun t => t * impact) w).
Proof.
  intros Htiny Hbound Hscale Hp Hmode.
  assert (Hshape : 0 < shape) by (pose proof tiny_pos; lra).
  assert (Hs : 0 <= scale <= 1) by lra.
  destruct (theta_pdf shape scale periods adstock_type) as [Hsum Hw];
    try assumption; try lra.
  { now apply density_in_range. }
  destruct (transformed_scale_range scale periods Hp Hs) as [Hlo Hhi].
  apply le_IZR in Hlo, Hhi.
  set (ts := Py.round (1 + scale * (IZR periods - 1))) in *.
  set (p := map _ (Np.arange 1 (periods + 1))) in *.
  assert (Hpos : forall u, In u p -> 0 < u).
  { intros u Hu. unfold p in Hu. apply in_map_iff in Hu.
    destruct Hu as [y [<- _]]. apply density_pos; [exact Hshape|].
    apply IZR_lt. lia. }
  assert (Hone : Np.sum (map (fun v => v / Np.sum p) p) = 1).
  { change (fun v => v / Np.sum p) with (fun v => v * / Np.sum p).
    rewrite sum_map_scale. field. lra. }
  exists ts, p, (map (fun v => v / Np.sum p) p).
  split; [lia|]. split; [reflexivity|]. split; [reflexivity|].
  split; [exact Hw|]. split; [|split].
  - intros x Hx. apply in_map_iff in Hx. destruct Hx as [v [<- Hv]].
    pose proof (Hpos v Hv) as Hv0.
    pose proof (sum_ge_member p v Hpos Hv) as Hvs.
    split; [left; now apply Rdiv_lt_0_compat|].
    apply Rmult_le_reg_r with (Np.sum p); [exact Hsum|].
    unfold Rdiv. rewrite Rmult_assoc, Rinv_l by lra. lra.
  - rewrite Hone. replace (1 - 1) with 0 by ring. rewrite Rabs_R0.
    now apply tolerance_nonneg.
  - intros impact. now rewrite (weibull_of_weights _ _ _ _ _ _ _ Hw).
Qed.

Lemma weibull_pdf_sums_to_one_witness :
  exists (transformed_scale : Z) (p w : list R),
    (1 <= transformed_scale <= 5)%Z /\
    theta_vec_cum 1 (1 / 2) 5 "PDF" = Ok (Some w) /\
    Rabs (Np.sum w - 1) <= IZR 5 / 2 ^ 50.
Proof.
  assert (Hbound : Rabs (1 - 1) * ln (IZR 5) <= 500).
  { replace (1 - 1) with 0 by ring. rewrite Rabs_R0. lra. }
  destruct (weibull_pdf_sums_to_one 1 (1 / 2) 5 "PDF" tiny_le_one Hbound)
    as [ts [p [w [Hts [_ [_ [Hw [_ [Hsum _]]]]]]]]];
    try lra; try lia; try reflexivity.
  exists ts, p, w. split; [exact Hts|]. split; [exact Hw | exact Hsum].
Defined.

(** C3 fails for a large shape: with [shape = 2000], [scale = 0.1] and
    [periods = 3] the Weibull scale is [1], the density at [x = 2] needs
    [2 ^ 1999], which leaves the double range, and the weights are [nan]:
    no vector that sums to [1] is produced. *)
Lemma weibull_pdf_large_shape_nonfinite :
  0 < 2000 /\ 0 < 1 / 10 <= 1 /\ (1 <= 3)%Z /\
  theta_vec_cum 2000 (1 / 10) 3 "pdf" = NonFinite /\
  weibull_adstock_decay 100 2000 (1 / 10) 3 "pdf" false = NonFinite.
Proof.
  split; [lra|]. split; [lra|]. split; [lia|].
  assert (Hw : theta_vec_cum 2000 (1 / 10) 3 "pdf" = NonFinite).
  { unfold theta_vec_cum.
    rewrite quantile_x_bin by (try lia; lra). cbn [bind].
    rewrite !Reqb_false by lra. cbn [orb].
    change (Py.lower "pdf") with "pdf"%string.
    change ("pdf" =? "cdf")%string with false.
    change ("pdf" =? "pdf")%string with true. cbv iota.
    rewrite (round_below_half _ 1) by (simpl; lra).
    change (Np.arange 1 (3 + 1)) with [1; 2; 3].
    cbn [map_result].
    assert (Hfirst : Rpower (1 / 1) (2000 - 1) < float_overflow).
    { replace (1 / 1) with 1 by field. rewrite Rpower_one_base.
      pose proof float_overflow_above.
      assert (1 <= 2 ^ 1000) by (apply pow_R1_Rle; lra). lra. }
    rewrite (weibull_min_pdf_pos 2000 1) by (try lra; exact Hfirst).
    cbn [bind].
    rewrite (weibull_min_pdf_overflow 2000 1);
      [reflexivity | lra | lra | lra |].
    replace (2 / 1) with 2 by field.
    replace (2000 - 1) with (INR 1999)
      by (rewrite INR_IZR_INZ; change (IZR (Z.of_nat 1999)) with 1999; lra).
    rewrite Rpower_pow by lra.
    rewrite <- (Rabs_pos_eq (2 ^ 1999)) by (apply pow_le; lra).
    apply pow_two_overflows. lia. }
  split; [exact Hw|].
  unfold weibull_adstock_decay. now rewrite Hw.
Qed.



(** In doubles the scaled maximum can miss [1]: on the column
    [[1; 0.4686691093751521]] the scaler returns [0.9999999999999999] for
    the greater entry, so that lines 93-95 give [99.99999999999999] for an
    impact of [100]; the least entry is mapped to exactly [0]. *)
Lemma normalised_maximum_rounded :
  F64.normalised_output 100 [1; 0.4686691093751521]%float
  = Some [99.99999999999999; 0]%float.
Proof. vm_compute. reflexivity. Qed.


(** * Further properties of the geometric transformation *)

Lemma geometric_single (impact decay_factor : R) (periods : Z) :
  (periods <= 1)%Z ->
  geometric_adstock_decay impact decay_factor periods = [impact].
Proof.
  intros Hp. rewrite geometric_unfold.
  now replace (Z.to_nat (periods - 1)) with O by lia.
Qed.

(** X1.  With [periods <= 1] (zero and negative counts included) the loop
    body never runs and the result is the one-element list [[impact]]; so
    the length of the result is [max 1 periods], not [periods]. *)
Theorem geometric_adstock_decay_short (impact decay_factor : R)
  (periods : Z) :
  ((periods <= 1)%Z ->
   geometric_adstock_decay impact decay_factor periods = [impact]) /\
  List.length (geometric_adstock_decay impact decay_factor periods)
  = Z.to_nat (Z.max 1 periods).
Proof.
  split; [apply geometric_single|].
  destruct (Z_lt_le_dec periods 1) as [Hlt | Hge].
  - rewrite geometric_single by lia. simpl. lia.
  - rewrite geometric_length by lia. lia.
Qed.

Lemma geometric_adstock_decay_short_witness :
  (-3 <= 1)%Z /\ geometric_adstock_decay 100 (1 / 2) (-3) = [100].
Proof.
  split; [lia|].
  apply (proj1 (geometric_adstock_decay_short 100 (1 / 2) (-3))). lia.
Defined.

Lemma last_nth_eq (l : list R) (d : R) :
  last l d = nth (List.length l - 1) l d.
Proof.
  induction l as [|x l IH]; [reflexivity|].
  destruct l as [|y l]; [reflexivity|].
  change (last (x :: y :: l) d) with (last (y :: l) d). rewrite IH.
  simpl. now rewrite Nat.sub_0_r.
Qed.

(** X2.  Asking for one more period only appends one value: for
    [periods >= 1], the result for [periods + 1] is the result for
    [periods] followed by its last value times [decay_factor]. *)
Theorem geometric_adstock_decay_extend (impact decay_factor : R)
  (periods : Z) :
  (1 <= periods)%Z ->
  geometric_adstock_decay impact decay_factor (periods + 1) =
  geometric_adstock_decay impact decay_factor periods
  ++ [last (geometric_adstock_decay impact decay_factor periods) 0
      * decay_factor].
Proof.
  intros Hp. rewrite last_nth_eq, geometric_length by exact Hp.
  rewrite geometric_nth by lia.
  rewrite !geometric_unfold.
  replace (Z.to_nat (periods + 1 - 1)) with (S (Z.to_nat (periods - 1)))
    by lia.
  rewrite seq_S, map_app. cbn [map].
  replace (1 + Z.to_nat (periods - 1))%nat
    with (S (Z.to_nat periods - 1)) by lia.
  cbn [app]. do 3 f_equal. simpl. ring.
Qed.

Lemma geometric_adstock_decay_extend_witness :
  (1 <= 2)%Z /\
  geometric_adstock_decay 100 (1 / 2) (2 + 1) =
  geometric_adstock_decay 100 (1 / 2) 2
  ++ [last (geometric_adstock_decay 100 (1 / 2) 2) 0 * (1 / 2)].
Proof.
  split; [lia|].
  apply (geometric_adstock_decay_extend 100 (1 / 2) 2). lia.
Defined.

(** X4.  The two ends of the decay-factor range, for [periods >= 1]:
    [decay_factor = 1] repeats [impact] in every period, and
    [decay_factor = 0] keeps [impact] in the first period and gives [0] in
    all later ones. *)
Theorem geometric_adstock_decay_extremes (impact : R) (periods : Z) :
  (1 <= periods)%Z ->
  geometric_adstock_decay impact 1 periods
  = repeat impact (Z.to_nat periods) /\
  geometric_adstock_decay impact 0 periods
  = impact :: repeat 0 (Z.to_nat periods - 1).
Proof.
  intros Hp. split.
  - apply (nth_ext _ _ 0 0).
    + rewrite geometric_length, repeat_length by lia. reflexivity.
    + intros i Hi. rewrite geometric_length in Hi by lia.
      rewrite geometric_nth, nth_repeat_lt, pow1 by lia. ring.
  - apply (nth_ext _ _ 0 0).
    + rewrite geometric_length by lia. simpl. rewrite repeat_length. lia.
    + intros i Hi. rewrite geometric_length in Hi by lia.
      rewrite geometric_nth by lia. destruct i as [|i]; simpl; [ring|].
      rewrite nth_repeat_lt by lia. ring.
Qed.

Lemma geometric_adstock_decay_extremes_witness :
  (1 <= 3)%Z /\
  geometric_adstock_decay 100 0 3 = 100 :: repeat 0 (Z.to_nat 3 - 1).
Proof.
  split; [lia|].
  apply (geometric_adstock_decay_extremes 100 3). lia.
Defined.

(** X5.  The plotting code pairs the series with the week column
    [range(1, num_periods + 1)].  The two have the same length exactly when
    [num_periods >= 1]; for a smaller count the week column is empty while
    the series still has one entry. *)
Theorem geometric_week_column (impact decay_factor : R) (num_periods : Z) :
  List.length (geometric_adstock_decay impact decay_factor num_periods)
  = List.length (Py.range 1 (num_periods + 1))
  <-> (1 <= num_periods)%Z.
Proof.
  rewrite range_length. split.
  - intros H. destruct (Z_lt_le_dec num_periods 1) as [Hlt | Hge];
      [|exact Hge].
    rewrite geometric_single in H by lia.
    simpl in H. lia.
  - intros Hp. rewrite geometric_length by lia. lia.
Qed.

(** * Further properties of the delayed geometric transformation *)

Lemma decay_step_le (impact d p : R) :
  0 <= d <= 1 -> 0 <= impact -> 0 <= p -> impact * (d * p) <= impact * p.
Proof.
  intros Hd Hi Hp. assert (0 <= impact * p) by nra. nra.
Qed.

(** X6.  A negative maximum lag is rejected by [np.zeros] with a
    [ValueError]; a maximum lag of zero gives the empty series. *)
Theorem delayed_geometric_decay_no_lag (impact decay_factor : R)
  (theta L : Z) :
  ((L < 0)%Z ->
   delayed_geometric_decay impact decay_factor theta L = Raise ValueError) /\
  (L = 0%Z ->
   delayed_geometric_decay impact decay_factor theta L = Ok []).
Proof.
  unfold delayed_geometric_decay, Np.zeros. split.
  - intros HL. destruct (Z.ltb_spec L 0) as [_|?]; [reflexivity | lia].
  - intros ->. reflexivity.
Qed.

Lemma delayed_geometric_decay_no_lag_witness :
  (-2 < 0)%Z /\ delayed_geometric_decay 100 (1 / 2) 3 (-2) = Raise ValueError.
Proof.
  split; [lia|].
  apply (proj1 (delayed_geometric_decay_no_lag 100 (1 / 2) 3 (-2))). lia.
Defined.

(** X8.  The curve is symmetric about the peak: two lags at the same
    distance [k] on either side of [theta], both inside [0..L-1], carry the
    same value. *)
Theorem delayed_geometric_decay_symmetric (impact decay_factor : R)
  (theta L k : Z) (series : list R) :
  delayed_geometric_decay impact decay_factor theta L = Ok series ->
  (0 <= k)%Z -> (0 <= theta - k)%Z -> (theta + k < L)%Z ->
  nth (Z.to_nat (theta - k)) series 0 = nth (Z.to_nat (theta + k)) series 0.
Proof.
  intros Hrun Hk Hlo Hhi.
  destruct (delayed_geometric_inv impact decay_factor theta L series Hrun)
    as [_ [Hlen Hnth]].
  rewrite !Hnth by lia. rewrite !Z2Nat.id by lia. unfold Py.abs.
  do 2 f_equal. lia.
Qed.

Lemma delayed_geometric_decay_symmetric_witness :
  exists series : list R,
    delayed_geometric_decay 100 (1 / 2) 2 5 = Ok series /\
    nth (Z.to_nat (2 - 1)) series 0 = nth (Z.to_nat (2 + 1)) series 0.
Proof.
  assert (Hone : 1 <= 2 ^ 1000) by (apply pow_R1_Rle; lra).
  destruct (delayed_geometric_spec 100 (1 / 2) 2 5 ltac:(lia))
    as [series [Hrun _]].
  { intros i _. apply unit_decay_in_range; rewrite Rabs_pos_eq; lra. }
  exists series. split; [exact Hrun|].
  apply (delayed_geometric_decay_symmetric 100 (1 / 2) 2 5 1 series Hrun);
    lia.
Defined.

(** X9.  For [decay_factor] in [[0,1]] and [impact >= 0] the curve has a
    single peak: every value lies in [[0, impact]], the values do not go
    down while the lag is below [theta], and do not go up from [theta]
    on. *)
Theorem delayed_geometric_decay_unimodal (impact decay_factor : R)
  (theta L : Z) (series : list R) :
  delayed_geometric_decay impact decay_factor theta L = Ok series ->
  0 <= decay_factor <= 1 -> 0 <= impact ->
  (forall i : Z, (0 <= i < L)%Z ->
     0 <= nth (Z.to_nat i) series 0 <= impact) /\
  (forall i : Z, (0 <= i)%Z -> (i + 1 < L)%Z -> (i + 1 <= theta)%Z ->
     nth (Z.to_nat i) series 0 <= nth (Z.to_nat (i + 1)) series 0) /\
  (forall i : Z, (0 <= i)%Z -> (i + 1 < L)%Z -> (theta <= i)%Z ->
     nth (Z.to_nat (i + 1)) series 0 <= nth (Z.to_nat i) series 0).
Proof.
  intros Hrun Hd Himp.
  destruct (delayed_geometric_inv impact decay_factor theta L series Hrun)
    as [HL [Hlen Hnth]].
  assert (Hform : forall i : Z, (0 <= i < L)%Z ->
            nth (Z.to_nat i) series 0 =
            impact * decay_factor ^ Z.abs_nat (i - theta)).
  { intros i Hi. rewrite Hnth by lia. now rewrite Z2Nat.id by lia. }
  split; [|split].
  - intros i Hi. rewrite Hform by exact Hi.
    pose proof (pow_unit_interval decay_factor (Z.abs_nat (i - theta)) Hd).
    nra.
  - intros i Hi0 Hi1 Hbelow. rewrite !Hform by lia.
    replace (Z.abs_nat (i - theta))
      with (S (Z.abs_nat (i + 1 - theta))) by lia.
    pose proof (pow_unit_interval decay_factor
                  (Z.abs_nat (i + 1 - theta)) Hd).
    simpl. apply decay_step_le; lra.
  - intros i Hi0 Hi1 Habove. rewrite !Hform by lia.
    replace (Z.abs_nat (i + 1 - theta))
      with (S (Z.abs_nat (i - theta))) by lia.
    pose proof (pow_unit_interval decay_factor (Z.abs_nat (i - theta)) Hd).
    simpl. apply decay_step_le; lra.
Qed.

Lemma delayed_geometric_decay_unimodal_witness :
  exists series : list R,
    delayed_geometric_decay 100 (1 / 2) 2 5 = Ok series /\
    forall i : Z, (0 <= i < 5)%Z ->
      0 <= nth (Z.to_nat i) series 0 <= 100.
Proof.
  assert (Hone : 1 <= 2 ^ 1000) by (apply pow_R1_Rle; lra).
  destruct (delayed_geometric_spec 100 (1 / 2) 2 5 ltac:(lia))
    as [series [Hrun _]].
  { intros i _. apply unit_decay_in_range; rewrite Rabs_pos_eq; lra. }
  exists series. split; [exact Hrun|].
  apply (delayed_geometric_decay_unimodal 100 (1 / 2) 2 5 series Hrun); lra.
Defined.

(** * Further properties of the Weibull transformation *)

(** Once the weight vector exists, lines 90-98 cannot fail, and they keep
    one entry per period. *)
Lemma weibull_ok_of_weights (impact shape scale : R) (periods : Z)
  (adstock_type : string) (normalised : bool) (w : list R) :
  theta_vec_cum shape scale periods adstock_type = Ok (Some w) ->
  exists out : list R,
    weibull_adstock_decay impact shape scale periods adstock_type normalised
    = Ok out /\
    List.length out = Z.to_nat periods.
Proof.
  intros Hw.
  destruct (theta_domain _ _ _ _ _ Hw) as [Hp _].
  pose proof (theta_length _ _ _ _ _ Hw) as Hlen.
  rewrite (weibull_of_weights _ _ _ _ _ _ _ Hw).
  destruct normalised.
  - destruct (minmax_monotone w (nonempty_of_length _ _ Hp Hlen))
      as [f [-> _]].
    cbn [bind]. eexists. split; [reflexivity|]. now rewrite !length_map.
  - eexists. split; [reflexivity|]. now rewrite length_map.
Qed.

(** X10.  Inputs the quantile step refuses make the whole call raise
    before any weight is computed: a [scale] outside [[0,1]] is a
    [ValueError], and with [periods < 1] the index axis is empty and the
    call raises as well, even when [shape = 0] or [scale = 0]. *)
Theorem weibull_adstock_decay_rejects (impact shape scale : R)
  (periods : Z) (adstock_type : string) (normalised : bool) :
  (scale < 0 \/ 1 < scale ->
   weibull_adstock_decay impact shape scale periods adstock_type normalised
   = Raise ValueError) /\
  ((periods < 1)%Z ->
   exists e,
     weibull_adstock_decay impact shape scale periods adstock_type
       normalised = Raise e).
Proof.
  split.
  - intros Hs. unfold weibull_adstock_decay, theta_vec_cum.
    now rewrite quantile_bad_fraction.
  - intros Hp.
    destruct (quantile_x_bin_raises periods scale) as [e He]; [lia|].
    exists e. unfold weibull_adstock_decay, theta_vec_cum. now rewrite He.
Qed.

Lemma weibull_adstock_decay_rejects_witness :
  weibull_adstock_decay 100 0 (3 / 2) 4 "cdf" true = Raise ValueError.
Proof.
  apply (proj1 (weibull_adstock_decay_rejects 100 0 (3 / 2) 4 "cdf" true)).
  right. lra.
Defined.

(** X11.  In CDF mode, on the whole range the page's sliders allow and
    beyond ([shape >= 0], [scale] in [[0,1]], [periods >= 1], mode ["cdf"]
    in any letter case, either flag), the call returns a series, and never
    an error or a non-finite value; the series has [periods] entries, as
    many as the week column [range(1, periods + 1)] it is plotted
    against. *)
Theorem weibull_adstock_decay_total (impact shape scale : R) (periods : Z)
  (adstock_type : string) (normalised : bool) :
  0 <= shape -> 0 <= scale <= 1 -> (1 <= periods)%Z ->
  Py.lower adstock_type = "cdf"%string ->
  exists out : list R,
    weibull_adstock_decay impact shape scale periods adstock_type normalised
    = Ok out /\
    List.length out = Z.to_nat periods /\
    List.length out = List.length (Py.range 1 (periods + 1)).
Proof.
  intros Hshape Hscale Hp Hmode.
  assert (Hw : exists w,
             theta_vec_cum shape scale periods adstock_type = Ok (Some w)).
  { destruct (Req_dec shape 0) as [H0 | H0];
      [eexists; apply theta_degenerate; auto|].
    destruct (Req_dec scale 0) as [S0 | S0];
      [eexists; apply theta_degenerate; auto|].
    eexists. apply theta_cdf; auto. lra. }
  destruct Hw as [w Hw].
  destruct (weibull_ok_of_weights impact _ _ _ _ normalised _ Hw)
    as [out [Hrun Hlen]].
  exists out. split; [exact Hrun|]. split; [exact Hlen|].
  rewrite Hlen, range_length. lia.
Qed.

Lemma weibull_adstock_decay_total_witness :
  exists out : list R,
    weibull_adstock_decay 100 (1 / 10) (1 / 10) 20 "cdf" true = Ok out /\
    List.length out = Z.to_nat 20 /\
    List.length out = List.length (Py.range 1 (20 + 1)).
Proof.
  apply (weibull_adstock_decay_total 100 (1 / 10) (1 / 10) 20 "cdf" true);
    try lra; try lia. reflexivity.
Defined.

(** X12.  The transformed scale is always a period of the axis: for
    [periods >= 1] and [scale] in [[0,1]] the rounded quantile lies in
    [1..periods]; [scale = 0] gives the first period and [scale = 1] the
    last one. *)
Theorem weibull_transformed_scale_range (periods : Z) (scale : R) :
  (1 <= periods)%Z -> 0 <= scale <= 1 ->
  exists q : R,
    Np.quantile (Np.arange 1 (periods + 1)) scale = Ok q /\
    (1 <= Py.round q <= periods)%Z /\
    (scale = 0 -> Py.round q = 1%Z) /\
    (scale = 1 -> Py.round q = periods).
Proof.
  intros Hp Hs. exists (1 + scale * (IZR periods - 1)).
  assert (Hp1 : 1 <= IZR periods) by (apply IZR_le in Hp; exact Hp).
  split; [now apply quantile_x_bin|]. split; [split|split].
  - apply round_ge_1. nra.
  - apply round_le_integer. nra.
  - intros ->. replace (1 + 0 * (IZR periods - 1)) with (IZR 1) by ring.
    apply round_IZR.
  - intros ->. replace (1 + 1 * (IZR periods - 1)) with (IZR periods) by ring.
    apply round_IZR.
Qed.

Lemma weibull_transformed_scale_range_witness :
  exists q : R,
    Np.quantile (Np.arange 1 (20 + 1)) (1 / 2) = Ok q /\
    (1 <= Py.round q <= 20)%Z.
Proof.
  destruct (weibull_transformed_scale_range 20 (1 / 2))
    as [q [Hq [Hr _]]]; [lia | lra |].
  exists q. split; [exact Hq | exact Hr].
Defined.

Lemma nonincreasing_le (l : list R) (i j : nat) :
  nonincreasing l -> (i <= j)%nat -> (j < List.length l)%nat ->
  nth j l 0 <= nth i l 0.
Proof.
  intros Hl Hij Hj. induction j as [|j IH].
  - replace i with O by lia. lra.
  - destruct (Nat.eq_dec i (S j)) as [-> | Hne]; [lra|].
    apply Rle_trans with (nth j l 0); [apply Hl; lia | apply IH; lia].
Qed.

(** The CDF-mode weight vector: it starts at [1], never goes up, stays in
    [[0,1]], and its second entry, when there is one, is already below
    [1]. *)
Lemma cdf_weights_profile (shape scale : R) (periods : Z)
  (adstock_type : string) :
  0 < shape -> 0 < scale <= 1 -> (1 <= periods)%Z ->
  Py.lower adstock_type = "cdf"%string ->
  exists w : list R,
    theta_vec_cum shape scale periods adstock_type = Ok (Some w) /\
    List.length w = Z.to_nat periods /\
    nonincreasing w /\
    nth 0 w 0 = 1 /\
    (forall x, In x w -> 0 <= x <= 1) /\
    ((2 <= periods)%Z -> nth 1 w 0 < 1).
Proof.
  intros Hshape Hscale Hp Hmode.
  assert (Hs : 0 <= scale <= 1) by lra.
  assert (Hs0 : scale <> 0) by lra.
  pose proof (theta_cdf shape scale periods adstock_type Hp Hs
                Hshape Hs0 Hmode) as Hw.
  set (ts := IZR (Py.round (1 + scale * (IZR periods - 1)))) in *.
  set (g := fun x : R => 1 - exp (- Rpower (x / ts) shape)) in *.
  assert (Hfac : forall x,
             In x (1 :: map (fun p => 1 - p)
                          (map g (removelast (Np.arange 1 (periods + 1))))) ->
             0 <= x <= 1).
  { intros x [<- | Hx]; [lra|].
    apply in_map_iff in Hx. destruct Hx as [p [<- Hp']].
    apply in_map_iff in Hp'. destruct Hp' as [y [<- _]]. unfold g.
    pose proof (survival_bounds shape ts y). lra. }
  eexists. split; [exact Hw|].
  split; [exact (theta_length _ _ _ _ _ Hw)|].
  split; [apply cumprod_from_nonincreasing; [lra | exact Hfac]|].
  split; [simpl; ring|].
  split; [apply cumprod_from_bounds; [lra | exact Hfac]|].
  intros Hp2.
  destruct (removelast (Np.arange 1 (periods + 1))) as [|y rest] eqn:Hrl.
  { apply (f_equal (@List.length R)) in Hrl.
    rewrite removelast_length, arange_length in Hrl. simpl in Hrl. lia. }
  simpl. unfold g. pose proof (survival_bounds shape ts y). lra.
Qed.

(** X13.  In CDF mode without normalisation the series starts at exactly
    [impact], and for [impact >= 0] every later value stays in
    [[0, impact]]. *)
Theorem weibull_cdf_unnormalised_start (impact shape scale : R)
  (periods : Z) (adstock_type : string) :
  0 < shape -> 0 < scale <= 1 -> (1 <= periods)%Z ->
  Py.lower adstock_type = "cdf"%string ->
  exists out : list R,
    weibull_adstock_decay impact shape scale periods adstock_type false
    = Ok out /\
    nth 0 out 0 = impact /\
    (0 <= impact -> forall x, In x out -> 0 <= x <= impact).
Proof.
  intros Hshape Hscale Hp Hmode.
  destruct (cdf_weights_profile shape scale periods adstock_type)
    as [w [Hw [Hlen [_ [Hfirst [Hrange _]]]]]]; try assumption.
  rewrite (weibull_of_weights _ _ _ _ _ _ _ Hw).
  eexists. split; [reflexivity|]. split.
  - rewrite (nth_map_in _ _ _ 0) by lia. rewrite Hfirst. ring.
  - intros Himp x Hx. apply in_map_iff in Hx.
    destruct Hx as [t [<- Ht]]. pose proof (Hrange t Ht). nra.
Qed.

Lemma weibull_cdf_unnormalised_start_witness :
  exists out : list R,
    weibull_adstock_decay 100 2 (1 / 2) 5 "cdf" false = Ok out /\
    nth 0 out 0 = 100.
Proof.
  destruct (weibull_cdf_unnormalised_start 100 2 (1 / 2) 5 "cdf")
    as [out [Hrun [Hfirst _]]]; try lra; try lia; try reflexivity.
  exists out. split; [exact Hrun | exact Hfirst].
Defined.

(** X14.  In CDF mode with normalisation the series ends at exactly [0],
    and for [impact >= 0] its first value is its greatest: the curve runs
    from its maximum down to zero. *)
Theorem weibull_cdf_normalised_ends (impact shape scale : R)
  (periods : Z) (adstock_type : string) :
  0 < shape -> 0 < scale <= 1 -> (1 <= periods)%Z ->
  Py.lower adstock_type = "cdf"%string ->
  exists out : list R,
    weibull_adstock_decay impact shape scale periods adstock_type true
    = Ok out /\
    nth (Z.to_nat periods - 1) out 0 = 0 /\
    (0 <= impact -> is_max (nth 0 out 0) out).
Proof.
  intros Hshape Hscale Hp Hmode.
  destruct (cdf_weights_profile shape scale periods adstock_type)
    as [w [Hw [Hlen [Hmono [Hfirst [_ Hsecond]]]]]];
    try assumption; try lia.
  destruct (Z_lt_le_dec periods 2) as [Hone | Htwo].
  { (* one period: the single weight is its own minimum *)
    rewrite (weibull_of_weights _ _ _ _ _ _ _ Hw).
    assert (Hsingle : w = [nth 0 w 0]).
    { destruct w as [|x [|y w]]; simpl in Hlen; try lia. reflexivity. }
    rewrite minmax_constant.
    - cbn [bind]. rewrite Hlen, map_scale_zeros.
      replace (Z.to_nat periods) with 1%nat by lia.
      eexists. split; [reflexivity|]. split; [reflexivity|].
      intros _. split; [now left|]. intros x [<- | []]. simpl. lra.
    - apply (nonempty_of_length _ periods Hp Hlen).
    - rewrite Hsingle. intros a b [<- | []] [<- | []]. reflexivity. }
  specialize (Hsecond Htwo).
  assert (Hnc : ~ constant w).
  { intros Hc.
    assert (H : nth 0 w 0 = nth 1 w 0)
      by (apply Hc; apply nth_In; lia).
    lra. }
  rewrite (weibull_of_weights _ _ _ _ _ _ _ Hw).
  destruct (minmax_nonconstant w Hnc)
    as [f [-> [Hf [[m [Hm Hfm]] [_ Hrange]]]]].
  cbn [bind]. rewrite map_map.
  exists (map (fun x => f x * impact) w).
  split; [reflexivity|].
  rewrite !(nth_map_in _ w 0 0) by lia.
  destruct (In_nth w m 0 Hm) as [i [Hi Hmi]].
  split.
  - assert (Hbot : f (nth (Z.to_nat periods - 1) w 0) = 0).
    { assert (f (nth (Z.to_nat periods - 1) w 0) <= f m).
      { apply Hf. rewrite <- Hmi. apply nonincreasing_le; auto; lia. }
      assert (0 <= f (nth (Z.to_nat periods - 1) w 0) <= 1)
        by (apply Hrange, nth_In; lia).
      lra. }
    rewrite Hbot. ring.
  - intros Himp. split.
    + apply in_map_iff. exists (nth 0 w 0). split; [reflexivity|].
      apply nth_In. lia.
    + intros x Hx. apply in_map_iff in Hx. destruct Hx as [y [<- Hy]].
      destruct (In_nth w y 0 Hy) as [j [Hj Hyj]].
      assert (f y <= f (nth 0 w 0)).
      { apply Hf. rewrite <- Hyj. apply nonincreasing_le; auto; lia. }
      nra.
Qed.

Lemma weibull_cdf_normalised_ends_witness :
  exists out : list R,
    weibull_adstock_decay 100 2 (1 / 2) 5 "cdf" true = Ok out /\
    nth (Z.to_nat 5 - 1) out 0 = 0.
Proof.
  destruct (weibull_cdf_normalised_ends 100 2 (1 / 2) 5 "cdf")
    as [out [Hrun [Hlast _]]]; try lra; try lia; try reflexivity.
  exists out. split; [exact Hrun | exact Hlast].
Defined.





Lemma map_result_nonfinite {A B : Type} (f : A -> result B) (l : list A) :
  l <> [] -> (forall x, f x = NonFinite) -> map_result f l = NonFinite.
Proof.
  destruct l as [|x l]; [congruence|]. intros _ Hf. simpl.
  now rewrite Hf.
Qed.

(** X19.  A negative shape is not rejected: SciPy answers with [nan], so
    for [scale] in [(0,1]] the call ends with non-finite values in its
    array, not with an exception, in PDF mode for any [periods >= 1] and in
    CDF mode as soon as [periods >= 2]. *)
Theorem weibull_negative_shape_nonfinite (impact shape scale : R)
  (periods : Z) (adstock_type : string) (normalised : bool) :
  shape < 0 -> 0 < scale <= 1 ->
  (Py.lower adstock_type = "pdf"%string /\ (1 <= periods)%Z) \/
  (Py.lower adstock_type = "cdf"%string /\ (2 <= periods)%Z) ->
  weibull_adstock_decay impact shape scale periods adstock_type normalised
  = NonFinite.
Proof.
  intros Hshape Hscale Hmode.
  assert (Hp : (1 <= periods)%Z) by (destruct Hmode as [[_ ?] | [_ ?]]; lia).
  assert (Hcheck : forall s, Stats.argcheck shape s = false).
  { intros s. unfold Stats.argcheck. rewrite Rltb_false by lra.
    reflexivity. }
  unfold weibull_adstock_decay, theta_vec_cum.
  rewrite quantile_x_bin by (try assumption; lra). cbn [bind].
  rewrite !Reqb_false by lra. cbn [orb].
  destruct Hmode as [[Hm _] | [Hm Hp2]]; rewrite Hm.
  - change ("pdf" =? "cdf")%string with false.
    change ("pdf" =? "pdf")%string with true. cbv iota.
    rewrite map_result_nonfinite; [reflexivity | now apply x_bin_nonempty |].
    intros x. unfold Stats.weibull_min_pdf. now rewrite Hcheck.
  - change ("cdf" =? "cdf")%string with true. cbv iota.
    rewrite map_result_nonfinite; [reflexivity | |].
    + intros Hnil. apply (f_equal (@List.length R)) in Hnil.
      rewrite removelast_length, arange_length in Hnil. simpl in Hnil. lia.
    + intros x. unfold Stats.weibull_min_cdf. now rewrite Hcheck.
Qed.

Lemma weibull_negative_shape_nonfinite_witness :
  weibull_adstock_decay 100 (-1) (1 / 2) 3 "pdf" true = NonFinite.
Proof.
  apply (weibull_negative_shape_nonfinite 100 (-1) (1 / 2) 3 "pdf" true);
    try lra. left. split; [reflexivity | lia].
Defined.

(** * Magnitudes of the geometric series outside the intended range *)

(** X20.  The function does not check [decay_factor]; whatever its value
    and the sign of [impact], each magnitude is the previous one times
    [|decay_factor|].  So the magnitudes never go up when
    [|decay_factor| <= 1] (negative factors included, where the series
    alternates in sign) and never go down when [|decay_factor| >= 1]. *)
Theorem geometric_adstock_decay_magnitudes (impact decay_factor : R)
  (periods : Z) (i : nat) :
  (S i < Z.to_nat periods)%nat ->
  let series := geometric_adstock_decay impact decay_factor periods in
  Rabs (nth (S i) series 0) = Rabs decay_factor * Rabs (nth i series 0) /\
  (Rabs decay_factor <= 1 ->
   Rabs (nth (S i) series 0) <= Rabs (nth i series 0)) /\
  (1 <= Rabs decay_factor ->
   Rabs (nth i series 0) <= Rabs (nth (S i) series 0)).
Proof.
  intros Hi series. subst series.
  assert (Hstep : Rabs (nth (S i)
                          (geometric_adstock_decay impact decay_factor
                             periods) 0)
                  = Rabs decay_factor
                    * Rabs (nth i (geometric_adstock_decay impact
                                     decay_factor periods) 0)).
  { rewrite !geometric_nth by lia. rewrite <- Rabs_mult. f_equal.
    simpl. ring. }
  split; [exact Hstep|].
  pose proof (Rabs_pos (nth i (geometric_adstock_decay impact decay_factor
                                 periods) 0)) as Hpos.
  split; intros Hd; rewrite Hstep; nra.
Qed.

Lemma geometric_adstock_decay_magnitudes_witness :
  Rabs (nth 1 (geometric_adstock_decay (-100) (-1 / 2) 4) 0)
  = Rabs (-1 / 2) * Rabs (nth 0 (geometric_adstock_decay (-100) (-1 / 2) 4) 0).
Proof.
  apply (geometric_adstock_decay_magnitudes (-100) (-1 / 2) 4 0).
  simpl. lia.
Defined.
